(** * A TCP load balancer: consistent-hash ring, connection pool,
      phi-accrual health checker and dispatcher

    Shallow embedding of the Go packages [config], [hashing], [connpool],
    [health] and [balancer].  Go's [int], [int64] and [time.Duration] are
    64-bit two's-complement integers, modelled as [Z] with the wrap-around
    written out ([wrap64]); [uint32] is a [Z] in [0, 2^32); [float64] is the
    kernel's binary64 [float]; a Go [string] is a sequence of bytes, modelled
    as [string] (a list of 8-bit [ascii]); Go maps are [gmap]s and a lookup
    of a missing key yields the zero value, written with [default]. *)

From Stdlib Require Import ZArith Floats Ascii String.
From stdpp Require Import gmap strings list sorting pretty.

Local Open Scope Z_scope.

(** ** Machine integers *)

(** The value a 64-bit signed register holds after an operation whose
    mathematical result is [z]. *)
Definition wrap64 (z : Z) : Z := (z + 2 ^ 63) mod 2 ^ 64 - 2 ^ 63.

(** Conversion to [int32] (Go's [rune]): the low 32 bits, read as signed. *)
Definition wrap32 (z : Z) : Z := (z + 2 ^ 31) mod 2 ^ 32 - 2 ^ 31.

Definition min_int64 : Z := - 2 ^ 63.
Definition max_int64 : Z := 2 ^ 63 - 1.

(** [time.Since(t)] read at wall time [now]; both are nanosecond counts.
    [Time.Sub] saturates at the ends of the [Duration] range. *)
Definition Since (now t : Z) : Z :=
  let d := now - t in
  if d <? min_int64 then min_int64
  else if max_int64 <? d then max_int64
  else d.

(** ** Package config *)

Module Config.

Record BalancerConfig := {
  Port : Z;
  HealthCheckInterval : Z;
  FailureThreshold : float
}.

(** The backend's port field is [Port] in the source; it is [BackendPort]
    here because the balancer's record already owns that projection. *)
Record BackendConfig := {
  Host : string;
  BackendPort : Z;
  Weight : Z
}.

Record PoolConfig := {
  MaxIdle : Z;
  MaxActive : Z;
  IdleTimeout : Z
}.

Record Config := {
  Balancer : BalancerConfig;
  Backends : list BackendConfig;
  Pool : PoolConfig
}.

(** One constructor per [fmt.Errorf] of [validate]. *)
Inductive error :=
| InvalidPort (p : Z)
| InvalidHealthCheckInterval (d : Z)
| InvalidFailureThreshold (t : float)
| NoBackends
| MissingHost (i : nat)
| InvalidBackendPort (i : nat) (p : Z)
| InvalidWeight (i : nat) (w : Z)
| InvalidMaxIdle (n : Z)
| InvalidMaxActive (n : Z)
| InvalidIdleTimeout (d : Z).

(** The [for i, backend := range cfg.Backends] loop, from index [i]. *)
Fixpoint validate_backends (i : nat) (bs : list BackendConfig) : option error :=
  match bs with
  | [] => None
  | b :: rest =>
      if String.eqb (Host b) "" then Some (MissingHost i)
      else if BackendPort b <=? 0 then Some (InvalidBackendPort i (BackendPort b))
      else if Weight b <=? 0 then Some (InvalidWeight i (Weight b))
      else validate_backends (S i) rest
  end.

(** [validate]: [None] is Go's [nil]. *)
Definition validate (cfg : Config) : option error :=
  if Port (Balancer cfg) <=? 0 then Some (InvalidPort (Port (Balancer cfg)))
  else if HealthCheckInterval (Balancer cfg) <=? 0
    then Some (InvalidHealthCheckInterval (HealthCheckInterval (Balancer cfg)))
  else if PrimFloat.leb (FailureThreshold (Balancer cfg)) 0
    then Some (InvalidFailureThreshold (FailureThreshold (Balancer cfg)))
  else if (length (Backends cfg) =? 0)%nat then Some NoBackends
  else match validate_backends 0 (Backends cfg) with
       | Some e => Some e
       | None =>
           if MaxIdle (Pool cfg) <=? 0 then Some (InvalidMaxIdle (MaxIdle (Pool cfg)))
           else if MaxActive (Pool cfg) <=? 0
             then Some (InvalidMaxActive (MaxActive (Pool cfg)))
           else if IdleTimeout (Pool cfg) <=? 0
             then Some (InvalidIdleTimeout (IdleTimeout (Pool cfg)))
           else None
       end.

(** A backend entry that [validate] lets through. *)
Definition backend_ok (b : BackendConfig) : Prop :=
  Host b ≠ "" ∧ 0 < BackendPort b ∧ 0 < Weight b.

(** Two backends, the second with port zero. *)
Definition bad_backends : list BackendConfig :=
  [{| Host := "10.0.0.1"; BackendPort := 80; Weight := 1 |};
   {| Host := "10.0.0.2"; BackendPort := 0; Weight := 1 |}].

End Config.

(** ** Package connpool *)

Module Connpool.

(** A [net.Conn] as the pool sees it: an identity, the string form of its
    remote address, and whether the operating system will answer its
    [Close] with an error. *)
Record Conn := {
  conn_id : nat;
  RemoteAddr : string;
  close_fails : bool
}.

Record idleConn := {
  conn : Conn;
  timeAdded : Z
}.

(** The [Pool] struct without its mutex; [dialFunc] does network I/O and
    is passed to [Get] as the answer the network gives at that call. *)
Record Pool := {
  maxIdle : Z;
  maxActive : Z;
  idleTimeout : Z;
  active : Z;
  idle : gmap string (list idleConn)
}.

Inductive error :=
| ErrInvalidConfig      (* "invalid pool configuration" *)
| ErrNotFromPool        (* "connection not from pool" *)
| ErrMaxActive          (* "max active connections reached" *)
| ErrDial               (* "error dialing connection: ..." *)
| ErrClose.             (* what [conn.Close()] returned *)

Inductive result (A : Type) :=
| Ok (a : A)
| Err (e : error).
Arguments Ok {A} a.
Arguments Err {A} e.

Definition set_active (n : Z) (p : Pool) : Pool :=
  {| maxIdle := maxIdle p; maxActive := maxActive p;
     idleTimeout := idleTimeout p; active := n; idle := idle p |}.

Definition set_idle (m : gmap string (list idleConn)) (p : Pool) : Pool :=
  {| maxIdle := maxIdle p; maxActive := maxActive p;
     idleTimeout := idleTimeout p; active := active p; idle := m |}.

(** [conn.Close()]: [None] is [nil]. *)
Definition close_result (c : Conn) : option error :=
  if close_fails c then Some ErrClose else None.

(** [New].  The cleanup goroutine it starts is [cleanup] below, run as
    one of the operations on the pool. *)
Definition New (cfg : Config.PoolConfig) : result Pool :=
  if (Config.MaxIdle cfg <=? 0) || (Config.MaxActive cfg <=? 0)
  then Err ErrInvalidConfig
  else Ok {| maxIdle := Config.MaxIdle cfg;
             maxActive := Config.MaxActive cfg;
             idleTimeout := Config.IdleTimeout cfg;
             active := 0;
             idle := ∅ |}.

(** [createConn]: [dial] is what [p.dialFunc] answers, [None] for an
    error. *)
Definition createConn (dial : string → option Conn) (addr : string)
    (p : Pool) : Pool * result Conn :=
  if active p >=? maxActive p then (p, Err ErrMaxActive)
  else match dial addr with
       | None => (p, Err ErrDial)
       | Some c => (set_active (wrap64 (active p + 1)) p, Ok c)
       end.

(** [len(p.idle[addr])], a missing bucket being the nil slice. *)
Definition bucket (p : Pool) (addr : string) : list idleConn :=
  default [] (idle p !! addr).

Definition bucket_len (p : Pool) (addr : string) : Z :=
  Z.of_nat (length (bucket p addr)).

(** [Get]: the new pool, the connections closed during the call, and the
    returned pair. *)
Definition Get (now : Z) (dial : string → option Conn) (addr : string)
    (p : Pool) : Pool * list Conn * result Conn :=
  match idle p !! addr with
  | Some conns =>
      match last conns with
      | Some ic =>
          let p1 := set_idle (<[addr := take (length conns - 1) conns]> (idle p)) p in
          if Since now (timeAdded ic) >? idleTimeout p1 then
            let '(p2, r) := createConn dial addr p1 in (p2, [conn ic], r)
          else (set_active (wrap64 (active p1 + 1)) p1, [], Ok (conn ic))
      | None => let '(p1, r) := createConn dial addr p in (p1, [], r)
      end
  | None => let '(p1, r) := createConn dial addr p in (p1, [], r)
  end.

(** [Put]: [now] is the [time.Now()] stamped on the idle entry. *)
Definition Put (now : Z) (c : Conn) (p : Pool) : Pool * list Conn * option error :=
  if active p <=? 0 then (p, [], Some ErrNotFromPool)
  else
    let p1 := set_active (wrap64 (active p - 1)) p in
    let addr := RemoteAddr c in
    if bucket_len p1 addr >=? maxIdle p1 then (p1, [c], close_result c)
    else
      (set_idle (<[addr := bucket p1 addr ++ [{| conn := c; timeAdded := now |}]]> (idle p1)) p1,
       [], None).

(** [Close].  Go ranges over the map in an unspecified order; the order of
    the closed connections below is the map's enumeration order and no
    statement depends on it. *)
Definition Close (p : Pool) : Pool * list Conn * option error :=
  let '(m, closed) :=
    map_fold (λ addr conns '(m, closed), (delete addr m, closed ++ (conn <$> conns)))
             (idle p, []) (idle p) in
  (set_idle m p, closed, None).

(** One tick of [cleanup]: the body of its [for range ticker.C] loop, with
    the clock read once. *)
Definition stale (now : Z) (p : Pool) (ic : idleConn) : bool :=
  Since now (timeAdded ic) >? idleTimeout p.

Definition cleanup (now : Z) (p : Pool) : Pool * list Conn :=
  (set_idle (omap (λ conns,
               match List.filter (λ ic, negb (stale now p ic)) conns with
               | [] => None
               | valid => Some valid
               end) (idle p)) p,
   map_fold (λ _ conns closed, closed ++ (conn <$> List.filter (stale now p) conns))
            [] (idle p)).

(** Calls on a pool, each with what the environment answers during it. *)
Inductive op :=
| OpGet (now : Z) (dial : string → option Conn) (addr : string)
| OpPut (now : Z) (c : Conn)
| OpClose
| OpCleanup (now : Z).

Definition step (p : Pool) (o : op) : Pool :=
  match o with
  | OpGet now dial addr => (Get now dial addr p).1.1
  | OpPut now c => (Put now c p).1.1
  | OpClose => (Close p).1.1
  | OpCleanup now => (cleanup now p).1
  end.

Definition run (ops : list op) (p : Pool) : Pool := foldl step p ops.

Definition is_get_or_put (o : op) : bool :=
  match o with
  | OpGet _ _ _ | OpPut _ _ => true
  | _ => false
  end.

(** The idle cap as a predicate on pools. *)
Definition idle_capped (p : Pool) : Prop := ∀ addr, bucket_len p addr ≤ maxIdle p.

(** *** Inputs used in the examples *)

(** A network in which every dial succeeds, connection number [n]. *)
Definition dial_ok (n : nat) (addr : string) : option Conn :=
  Some {| conn_id := n; RemoteAddr := addr; close_fails := false |}.

Definition cfg_no_timeout : Config.PoolConfig :=
  {| Config.MaxIdle := 1; Config.MaxActive := 1; Config.IdleTimeout := 0 |}.

(** One idle slot, one active connection, a timeout of sixty seconds. *)
Definition cfg_one : Config.PoolConfig :=
  {| Config.MaxIdle := 1; Config.MaxActive := 1; Config.IdleTimeout := 60000000000 |}.

Definition pool_one : Pool :=
  {| maxIdle := 1; maxActive := 1; idleTimeout := 60000000000; active := 0; idle := ∅ |}.

Definition conn_a : Conn := {| conn_id := 1; RemoteAddr := "a:1"; close_fails := false |}.

(** Dial ["a:1"], which yields [conn_a]; hand it back; dial ["b:1"]. *)
Definition over_cap_prefix : list op :=
  [OpGet 0 (dial_ok 1) "a:1"; OpPut 1000 conn_a; OpGet 2000 (dial_ok 2) "b:1"].

(** ... and ask for ["a:1"] again, one second after the start. *)
Definition over_cap_ops : list op :=
  over_cap_prefix ++ [OpGet 1000000000 (dial_ok 3) "a:1"].

(** A pool with one connection handed out and nothing idle. *)
Definition pool_busy : Pool :=
  {| maxIdle := 1; maxActive := 1; idleTimeout := 60000000000; active := 1; idle := ∅ |}.

End Connpool.


(** ** Package hashing *)

Module Hashing.

Definition replicationFactor : Z := 100.

(** *** Strings as byte sequences *)

Definition bytes_of_string (s : string) : list Z :=
  (λ a, Z.of_N (N_of_ascii a)) <$> list_ascii_of_string s.

Definition string_of_bytes (bs : list Z) : string :=
  string_of_list_ascii ((λ b, ascii_of_N (Z.to_N b)) <$> bs).

(** [utf8.EncodeRune]: negative values, surrogates and values above
    U+10FFFF encode as U+FFFD. *)
Definition utf8_encode (r : Z) : list Z :=
  if (r <? 0) || (0x10FFFF <? r) || ((0xD800 <=? r) && (r <=? 0xDFFF))
  then [0xEF; 0xBF; 0xBD]
  else if r <? 0x80 then [r]
  else if r <? 0x800
    then [Z.lor 0xC0 (Z.shiftr r 6); Z.lor 0x80 (Z.land r 0x3F)]
  else if r <? 0x10000
    then [Z.lor 0xE0 (Z.shiftr r 12);
          Z.lor 0x80 (Z.land (Z.shiftr r 6) 0x3F);
          Z.lor 0x80 (Z.land r 0x3F)]
  else [Z.lor 0xF0 (Z.shiftr r 18);
        Z.lor 0x80 (Z.land (Z.shiftr r 12) 0x3F);
        Z.lor 0x80 (Z.land (Z.shiftr r 6) 0x3F);
        Z.lor 0x80 (Z.land r 0x3F)].

(** [string(rune(i))] for an [int] [i]. *)
Definition string_of_rune (i : Z) : string :=
  string_of_bytes (utf8_encode (wrap32 i)).

(** *** CRC-32, IEEE polynomial (reflected), as [hash/crc32] computes it *)

Definition crc32_poly : Z := 0xEDB88320.

Definition crc_bit (c : Z) : Z :=
  if Z.testbit c 0 then Z.lxor (Z.shiftr c 1) crc32_poly else Z.shiftr c 1.

Definition crc_byte (c b : Z) : Z := Nat.iter 8 crc_bit (Z.lxor c b).

Definition ChecksumIEEE (bs : list Z) : Z :=
  Z.lxor (foldl crc_byte 0xFFFFFFFF bs) 0xFFFFFFFF.

(** [hashKey] *)
Definition hashKey (key : string) : Z := ChecksumIEEE (bytes_of_string key).

(** *** The ring *)

Record ConsistentHasher := {
  hash : gmap Z string;
  nodes : list Z;
  weights : gmap string Z
}.

Definition New : ConsistentHasher :=
  {| hash := ∅; nodes := []; weights := ∅ |}.

(** The hash of the [i]-th virtual node of [node]. *)
Definition vnode (node : string) (i : Z) : Z :=
  hashKey (node +:+ string_of_rune i).

(** The values [i] takes in [for i := 0; i < replicationFactor*weight; i++];
    the product is computed in a 64-bit [int]. *)
Definition replicas (weight : Z) : list Z :=
  seqZ 0 (wrap64 (replicationFactor * weight)).

(** The body of the loop of [Add]. *)
Definition add_vnode (node : string) (c : ConsistentHasher) (i : Z) : ConsistentHasher :=
  let h := vnode node i in
  {| hash := <[h := node]> (hash c); nodes := nodes c ++ [h]; weights := weights c |}.

(** [Add].  [sort.Slice] with [<] on [uint32] values: every sorting
    algorithm returns the same slice, here stdpp's merge sort. *)
Definition Add (node : string) (weight : Z) (c : ConsistentHasher) : ConsistentHasher :=
  let c1 := {| hash := hash c; nodes := nodes c; weights := <[node := weight]> (weights c) |} in
  let c2 := foldl (add_vnode node) c1 (replicas weight) in
  {| hash := hash c2; nodes := merge_sort Z.le (nodes c2); weights := weights c2 |}.

(** [Remove], in the order the source has it: the weight is read and
    dropped, the virtual nodes' hashes are deleted from [hash], and then
    [nodes] is rebuilt from the entries [v] with [c.hash[v] != node], [hash]
    being the map after the deletions. *)
Definition Remove (node : string) (c : ConsistentHasher) : ConsistentHasher :=
  let weight := default 0 (weights c !! node) in
  let ws := delete node (weights c) in
  let h := foldl (λ h i, delete (vnode node i) h) (hash c) (replicas weight) in
  {| hash := h;
     nodes := filter (λ v, default "" (h !! v) ≠ node) (nodes c);
     weights := ws |}.

(** [sort.Search]: the loop [for i < j], with [h := int(uint(i+j) >> 1)].
    Each round shrinks [j - i], so [j - i] rounds of fuel are enough
    ([search_loop_fuel] below). *)
Fixpoint search_loop (fuel : nat) (f : Z → bool) (i j : Z) : Z :=
  match fuel with
  | O => i
  | S fuel' =>
      if i <? j then
        let h := Z.shiftr (i + j) 1 in
        if negb (f h) then search_loop fuel' f (h + 1) j
        else search_loop fuel' f i h
      else i
  end.

Definition Search (n : Z) (f : Z → bool) : Z := search_loop (Z.to_nat n) f 0 n.

(** [Get].  [None] stands for the run-time panic of an out-of-range index
    in [c.nodes[idx]]; [Get_no_panic] shows it never happens.  The closure
    given to [Search] reads [c.nodes[i]] and is called inside the range
    only ([Search_ext]). *)
Definition Get (key : string) (c : ConsistentHasher) : option string :=
  let n := Z.of_nat (length (nodes c)) in
  if n =? 0 then Some ""
  else
    let h := hashKey key in
    let idx := Search n (λ i, nodes c !!! Z.to_nat i >=? h) in
    let idx := if idx =? n then 0 else idx in
    if (0 <=? idx) && (idx <? n)
    then Some (default "" (hash c !! (nodes c !!! Z.to_nat idx)))
    else None.

(** The membership of a ring: the hosts with a weight record. *)
Definition members (c : ConsistentHasher) : gset string := dom (weights c).

(** Every entry of [nodes] is mapped by [hash] to a named member. *)
Definition ring_ok (c : ConsistentHasher) : Prop :=
  ∀ v, v ∈ nodes c → ∃ h, hash c !! v = Some h ∧ h ∈ members c ∧ h ≠ "".

(** Rings made by [Add] alone from the empty ring, the last addition first
    in the list. *)
Definition build (adds : list (string * Z)) : ConsistentHasher :=
  foldr (λ a c, Add a.1 a.2 c) New adds.

(** *** Inputs used in the examples *)

Definition ring_a : ConsistentHasher := Add "a" 1 New.

Definition ring_b : ConsistentHasher := Remove "a" (Add "b" 1 (Add "a" 1 New)).

(** Calls that change a ring. *)
Inductive ring_op :=
| RingAdd (node : string) (weight : Z)
| RingRemove (node : string).

Definition ring_step (c : ConsistentHasher) (o : ring_op) : ConsistentHasher :=
  match o with
  | RingAdd node weight => Add node weight c
  | RingRemove node => Remove node c
  end.

(** The ring after the calls [ops] on the empty ring, the first call
    first. *)
Definition ring_run (ops : list ring_op) : ConsistentHasher := foldl ring_step New ops.

End Hashing.


(** ** Package health *)

Module Health.

Definition sampleSize : Z := 1000.

Definition defaultPhiThreshold : float := 8%float.

(** [math.Sqrt2], the binary64 nearest to the square root of two. *)
Definition Sqrt2 : float := 0x1.6a09e667f3bcdp+0%float.

(** *** Conversions between [int64] and [float64] *)

(** [float64(z)]: the nearest binary64, ties to even.  [of_uint63] takes
    magnitudes below [2^63]; [- 2^63] is a binary64 itself. *)
Definition float64_of_int64 (z : Z) : float :=
  if z =? min_int64 then (- 0x1p+63)%float
  else if z <? 0 then PrimFloat.opp (PrimFloat.of_uint63 (Uint63.of_Z (- z)))
  else PrimFloat.of_uint63 (Uint63.of_Z z).

(** [time.Duration(x)] for a [float64] [x]: the fraction is dropped.  The
    Go specification leaves the value open when [x] is a NaN, an infinity
    or beyond the [int64] range; this is what amd64 yields. *)
Definition int64_of_float64 (x : float) : Z :=
  match Prim2SF x with
  | S754_zero _ => 0
  | S754_finite s m e =>
      let mag := Z.shiftl (Z.pos m) e in
      let v := if s then - mag else mag in
      if (min_int64 <=? v) && (v <=? max_int64) then v else min_int64
  | _ => min_int64
  end.

(** *** State *)

(** [times] always has [sampleSize] slots (allocated in [recordSuccess])
    and [index], [count] stay within it, so the indexings [h.times[i]] of
    the source are in range. *)
Record history := {
  times : list Z;
  index : Z;
  count : Z;
  mean : Z;
  stdDev : Z
}.

Record Checker := {
  interval : Z;
  phiThreshold : float;
  histories : gmap string history;
  lastCheck : gmap string Z
}.

Definition New (interval : Z) (phiThreshold : float) : Checker :=
  {| interval := interval;
     phiThreshold := if PrimFloat.leb phiThreshold 0 then defaultPhiThreshold
                     else phiThreshold;
     histories := ∅;
     lastCheck := ∅ |}.

(** [&history{times: make([]time.Duration, sampleSize)}] *)
Definition new_history : history :=
  {| times := replicate (Z.to_nat sampleSize) 0;
     index := 0; count := 0; mean := 0; stdDev := 0 |}.

(** The samples the two loops of [updateStats] read:
    [h.times[i]] for [i] from [0] below [h.count]. *)
Definition live (h : history) : list Z :=
  (λ i, times h !!! Z.to_nat i) <$> seqZ 0 (count h).

(** [updateStats] *)
Definition updateStats (h : history) : history :=
  if count h =? 0 then h
  else
    let sum := foldl (λ s d, wrap64 (s + d)) 0 (live h) in
    let mean' := wrap64 (Z.quot sum (count h)) in
    let sumSquares :=
      foldl (λ s d, let diff := float64_of_int64 (wrap64 (d - mean')) in
                    (s + diff * diff)%float)
            0%float (live h) in
    let variance := (sumSquares / float64_of_int64 (count h))%float in
    {| times := times h; index := index h; count := count h;
       mean := mean';
       stdDev := int64_of_float64 (PrimFloat.sqrt variance) |}.

(** The part of [recordSuccess] under the history's own lock: store the
    sample at [index], advance [index] and [count], recompute. *)
Definition record_sample (duration : Z) (hist : history) : history :=
  updateStats
    {| times := <[Z.to_nat (index hist) := duration]> (times hist);
       index := Z.rem (wrap64 (index hist + 1)) sampleSize;
       count := if count hist <? sampleSize then wrap64 (count hist + 1)
                else count hist;
       mean := mean hist;
       stdDev := stdDev hist |}.

(** [recordSuccess]; [now] is the [time.Now()] it stamps. *)
Definition recordSuccess (now : Z) (host : string) (duration : Z)
    (c : Checker) : Checker :=
  let hs := match histories c !! host with
            | Some _ => histories c
            | None => <[host := new_history]> (histories c)
            end in
  let hist := default new_history (hs !! host) in
  {| interval := interval c;
     phiThreshold := phiThreshold c;
     histories := <[host := record_sample duration hist]> hs;
     lastCheck := <[host := now]> (lastCheck c) |}.

(** [recordFailure] *)
Definition recordFailure (now : Z) (host : string) (c : Checker) : Checker :=
  {| interval := interval c;
     phiThreshold := phiThreshold c;
     histories := histories c;
     lastCheck := <[host := now]> (lastCheck c) |}.

(** [check]: [probe host] is what the network answers to the dial,
    [Some d] for a connection established after [d] nanoseconds and [None]
    for an error. *)
Definition check (now : Z) (probe : string → option Z) (host : string)
    (c : Checker) : Checker * bool :=
  match probe host with
  | None => (recordFailure now host c, false)
  | Some d => (recordSuccess now host d c, true)
  end.

(** The slice [hosts] that [checkAll] collects under the read lock. *)
Definition known_hosts (c : Checker) : list string := (map_to_list (histories c)).*1.

(** [checkAll].  The callback owns a state of type [S].  The source starts
    one goroutine per host; they are run here one after the other in the
    order of [hosts], which no statement below depends on. *)
Definition checkAll {S : Type} (updateFunc : string → bool → S → S)
    (now : Z) (probe : string → option Z) (c : Checker) (s : S) : Checker * S :=
  foldl (λ '(c, s) host,
           let '(c', healthy) := check now probe host c in
           (c', updateFunc host healthy s))
        (c, s) (known_hosts c).

(** [Start]: one [checkAll] per tick received before [ctx.Done()]; a tick
    carries the clock and the state of the network at that moment. *)
Definition Start {S : Type} (updateFunc : string → bool → S → S)
    (ticks : list (Z * (string → option Z))) (c : Checker) (s : S) : Checker * S :=
  foldl (λ '(c, s) '(now, probe), checkAll updateFunc now probe c s) (c, s) ticks.

(** *** Phi *)

Section Phi.

(** [math.Erf] and [math.Log10] are not part of the kernel's float
    operations; the functions below work for any pair. *)
Variables Erf Log10 : float → float.

(** [normalCDF] *)
Definition normalCDF (x : float) : float :=
  (0.5 * (1 + Erf (x / Sqrt2)))%float.

(** [phi], read at wall time [now]. *)
Definition phi (now : Z) (host : string) (c : Checker) : float :=
  match lastCheck c !! host with
  | None => 0%float
  | Some lastTime =>
      match histories c !! host with
      | None => 0%float
      | Some hist =>
          if count hist =? 0 then 0%float
          else
            let timeSinceLastCheck := Since now lastTime in
            let stdDev0 := float64_of_int64 (stdDev hist) in
            let mean' := float64_of_int64 (mean hist) in
            let stdDev' := if PrimFloat.eqb stdDev0 0
                           then (float64_of_int64 (mean hist) / 10)%float
                           else stdDev0 in
            let y := ((float64_of_int64 timeSinceLastCheck - mean') / stdDev')%float in
            (- Log10 (normalCDF (- y)))%float
      end
  end.

(** [IsHealthy] *)
Definition IsHealthy (now : Z) (host : string) (c : Checker) : bool :=
  PrimFloat.ltb (phi now host c) (phiThreshold c).

End Phi.

(** Calls that update a checker's records. *)
Inductive record_op :=
| RecSuccess (now : Z) (host : string) (duration : Z)
| RecFailure (now : Z) (host : string).

Definition record_step (c : Checker) (o : record_op) : Checker :=
  match o with
  | RecSuccess now host d => recordSuccess now host d c
  | RecFailure now host => recordFailure now host c
  end.

Definition is_success_for (host : string) (o : record_op) : bool :=
  match o with
  | RecSuccess _ h _ => bool_decide (h = host)
  | RecFailure _ _ => false
  end.

(** The durations the calls [ops] record for [host], in order. *)
Definition durations_for (host : string) (ops : list record_op) : list Z :=
  omap (λ o, match o with
             | RecSuccess _ h d => if decide (h = host) then Some d else None
             | RecFailure _ _ => None
             end) ops.

(** [max_int64 / sampleSize]: samples this close to zero cannot make the
    sum in [updateStats] leave the 64-bit range. *)
Definition sample_bound : Z := 9223372036854775.

(** Whether the network lets the probe of [host] connect: the value
    [check] returns and hands to the callback. *)
Definition answered (probe : string → option Z) (host : string) : bool :=
  match probe host with
  | Some _ => true
  | None => false
  end.

(** Two successful checks of one host between failed and foreign ones. *)
Definition two_successes : list record_op :=
  [RecFailure 1000000000 "10.0.0.1:80"; RecSuccess 2000000000 "10.0.0.1:80" 350000;
   RecSuccess 2000000000 "10.0.0.2:80" 410000; RecSuccess 3000000000 "10.0.0.1:80" 250000].

(** [checkAll] with its goroutines taken in the order [order], the check
    of [host] reading the clock at [clock host].  [checkAll] above is the
    case of the order of [known_hosts] and a clock that stands still. *)
Definition checkAll_in {S : Type} (updateFunc : string → bool → S → S)
    (clock : string → Z) (probe : string → option Z) (order : list string)
    (c : Checker) (s : S) : Checker * S :=
  foldl (λ '(c, s) host,
           let '(c', healthy) := check (clock host) probe host c in
           (c', updateFunc host healthy s))
        (c, s) order.

(** A callback that logs its calls. *)
Definition log_call (host : string) (healthy : bool) (s : list (string * bool))
    : list (string * bool) := s ++ [(host, healthy)].

(** A network in which only ["10.0.0.1:80"] answers, after 0.3 ms. *)
Definition probe_one (host : string) : option Z :=
  if String.eqb host "10.0.0.1:80" then Some 300000 else None.

(** The checker after [two_successes]. *)
Definition checker_two : Checker := foldl record_step (New 1000000000 8%float) two_successes.

End Health.


(** ** Package balancer *)

Module Balancer.

Record backend := {
  host : string;
  port : Z;
  weight : Z;
  health : bool
}.

(** The [balancer] struct without its listener and locks.  The checker
    field is [health] in the source; that projection belongs to [backend]
    here.  [backends] is the [sync.Map] from strings to backends. *)
Record balancer := {
  cfg : Config.Config;
  pool : Connpool.Pool;
  hasher : Hashing.ConsistentHasher;
  checker : Health.Checker;
  backends : gmap string backend
}.

Inductive error :=
| ErrCreatingPool (e : Connpool.error)   (* "creating connection pool: %w" *)
| ErrNoBackend                           (* "no backend available" *)
| ErrBackendNotFound (h : string)        (* "backend not found: %s" *)
| ErrBackendUnhealthy (h : string).      (* "backend unhealthy: %s" *)

(** [fmt.Sprintf("%s:%d", host, port)] *)
Definition host_port (h : string) (p : Z) : string := h +:+ ":" +:+ pretty p.

(** The body of the loop over [cfg.Backends] in [New]. *)
Definition add_backend (acc : gmap string backend * Hashing.ConsistentHasher)
    (bc : Config.BackendConfig) : gmap string backend * Hashing.ConsistentHasher :=
  let be := {| host := Config.Host bc; port := Config.BackendPort bc;
               weight := Config.Weight bc; health := true |} in
  (<[host_port (Config.Host bc) (Config.BackendPort bc) := be]> acc.1,
   Hashing.Add (host be) (weight be) acc.2).

(** [New] *)
Definition New (c : Config.Config) : balancer + error :=
  match Connpool.New (Config.Pool c) with
  | Connpool.Err e => inr (ErrCreatingPool e)
  | Connpool.Ok p =>
      let hc := Health.New (Config.HealthCheckInterval (Config.Balancer c))
                           (Config.FailureThreshold (Config.Balancer c)) in
      let '(bs, hs) := foldl add_backend (∅, Hashing.New) (Config.Backends c) in
      inl {| cfg := c; pool := p; hasher := hs; checker := hc; backends := bs |}
  end.

(** [updateBackendHealth], on the table of backends. *)
Definition updateBackendHealth (h : string) (healthy : bool)
    (bs : gmap string backend) : gmap string backend :=
  match bs !! h with
  | Some be =>
      <[h := {| host := host be; port := port be; weight := weight be;
                health := healthy |}]> bs
  | None => bs
  end.

(** [getHealthyBackend].  A panic of [Hashing.Get] cannot occur
    ([Get_no_panic]) and is mapped to "no backend available". *)
Definition getHealthyBackend (key : string) (b : balancer) : backend + error :=
  let h := default "" (Hashing.Get key (hasher b)) in
  if String.eqb h "" then inr ErrNoBackend
  else match backends b !! h with
       | None => inr (ErrBackendNotFound h)
       | Some be => if health be then inl be else inr (ErrBackendUnhealthy h)
       end.

(** The detector loop as [Start] launches it:
    [go b.health.Start(ctx, b.updateBackendHealth)]. *)
Definition run_detector (ticks : list (Z * (string → option Z)))
    (b : balancer) : balancer :=
  let '(hc, bs) := Health.Start updateBackendHealth ticks (checker b) (backends b) in
  {| cfg := cfg b; pool := pool b; hasher := hasher b; checker := hc; backends := bs |}.

(** *** One client connection: [handleConnection] and its two [proxy]
    goroutines, as an interleaving of atomic steps *)

(** Where a [proxy] goroutine stands: not yet started by [go], inside
    [io.Copy], back from [io.Copy] with its error (or [nil]), or past its
    last statement [errCh <- err]. *)
Inductive copy_state :=
| NotStarted
| Copying
| Copied (failed : bool)
| Terminated.

(** Where [handleConnection] stands. *)
Inductive handler_pc :=
| AtGetBackend                 (* b.getHealthyBackend(...) *)
| AtPoolGet (be : backend)     (* b.pool.Get(...) *)
| AtGo1                        (* go b.proxy(clientConn, backendConn, errCh) *)
| AtGo2                        (* go b.proxy(backendConn, clientConn, errCh) *)
| AtReceive                    (* <-errCh *)
| AtDeferredPut                (* defer b.pool.Put(backendConn) *)
| AtDeferredClose              (* defer clientConn.Close() *)
| Returned.

(** What the handler has done to its two connections, latest first. *)
Inductive action :=
| PutBackend (c : Connpool.Conn)
| CloseClient.

Record session := {
  pc : handler_pc;
  the_pool : Connpool.Pool;
  backendConn : option Connpool.Conn;
  to_client : copy_state;     (* proxy(clientConn, backendConn, errCh) *)
  to_backend : copy_state;      (* proxy(backendConn, clientConn, errCh) *)
  errCh : list bool;           (* buffered, capacity 2; [true] is a non-nil error *)
  done : list action
}.

(** The scheduler's choices.  A handler step carries the clock and the
    dial answer its pool call may need. *)
Inductive event :=
| Handler (now : Z) (dial : string → option Connpool.Conn)
| CopyReturns (first : bool) (failed : bool)
| Send (first : bool).

Definition start (b : balancer) : session :=
  {| pc := AtGetBackend; the_pool := pool b; backendConn := None;
     to_client := NotStarted; to_backend := NotStarted; errCh := []; done := [] |}.

Definition set_pc (x : handler_pc) (s : session) : session :=
  {| pc := x; the_pool := the_pool s; backendConn := backendConn s;
     to_client := to_client s; to_backend := to_backend s;
     errCh := errCh s; done := done s |}.

Definition get_copy (first : bool) (s : session) : copy_state :=
  if first then to_client s else to_backend s.

Definition set_copy (first : bool) (x : copy_state) (s : session) : session :=
  {| pc := pc s; the_pool := the_pool s; backendConn := backendConn s;
     to_client := if first then x else to_client s;
     to_backend := if first then to_backend s else x;
     errCh := errCh s; done := done s |}.

(** One atomic step of the client connection whose remote address is
    [key]; [None] when the chosen goroutine cannot move. *)
Definition step (b : balancer) (key : string) (s : session) (e : event) : option session :=
  match e with
  | Handler now dial =>
      match pc s with
      | AtGetBackend =>
          match getHealthyBackend key b with
          | inr _ => Some (set_pc AtDeferredClose s)
          | inl be => Some (set_pc (AtPoolGet be) s)
          end
      | AtPoolGet be =>
          match Connpool.Get now dial (host_port (host be) (port be)) (the_pool s) with
          | (p, _, Connpool.Err _) =>
              Some {| pc := AtDeferredClose; the_pool := p; backendConn := None;
                      to_client := to_client s; to_backend := to_backend s;
                      errCh := errCh s; done := done s |}
          | (p, _, Connpool.Ok c) =>
              Some {| pc := AtGo1; the_pool := p; backendConn := Some c;
                      to_client := to_client s; to_backend := to_backend s;
                      errCh := errCh s; done := done s |}
          end
      | AtGo1 => Some (set_pc AtGo2 (set_copy true Copying s))
      | AtGo2 => Some (set_pc AtReceive (set_copy false Copying s))
      | AtReceive =>
          match errCh s with
          | [] => None
          | _ :: rest =>
              Some {| pc := AtDeferredPut; the_pool := the_pool s;
                      backendConn := backendConn s;
                      to_client := to_client s; to_backend := to_backend s;
                      errCh := rest; done := done s |}
          end
      | AtDeferredPut =>
          match backendConn s with
          | None => None
          | Some c =>
              Some {| pc := AtDeferredClose;
                      the_pool := (Connpool.Put now c (the_pool s)).1.1;
                      backendConn := backendConn s;
                      to_client := to_client s; to_backend := to_backend s;
                      errCh := errCh s; done := PutBackend c :: done s |}
          end
      | AtDeferredClose =>
          Some {| pc := Returned; the_pool := the_pool s;
                  backendConn := backendConn s;
                  to_client := to_client s; to_backend := to_backend s;
                  errCh := errCh s; done := CloseClient :: done s |}
      | Returned => None
      end
  | CopyReturns first failed =>
      match get_copy first s with
      | Copying => Some (set_copy first (Copied failed) s)
      | _ => None
      end
  | Send first =>
      match get_copy first s with
      | Copied failed =>
          if (length (errCh s) <? 2)%nat then
            Some {| pc := pc s; the_pool := the_pool s; backendConn := backendConn s;
                    to_client := if first then Terminated else to_client s;
                    to_backend := if first then to_backend s else Terminated;
                    errCh := errCh s ++ [failed]; done := done s |}
          else None
      | _ => None
      end
  end.

(** A schedule, run from a state; [None] when it asks for a step that is
    not enabled. *)
Fixpoint exec (b : balancer) (key : string) (s : session) (es : list event) : option session :=
  match es with
  | [] => Some s
  | e :: es' =>
      match step b key s e with
      | Some s' => exec b key s' es'
      | None => None
      end
  end.

Definition terminated (x : copy_state) : bool :=
  match x with
  | Terminated => true
  | _ => false
  end.

Definition is_put (a : action) : bool :=
  match a with
  | PutBackend _ => true
  | CloseClient => false
  end.

(** [b.pool.Put(backendConn)] has been called. *)
Definition has_released (s : session) : bool := existsb is_put (done s).

(** How many of the two [proxy] goroutines have run to their end. *)
Definition terminated_count (s : session) : nat :=
  (if terminated (to_client s) then 1 else 0) + (if terminated (to_backend s) then 1 else 0).

(** What holds at each point of [handleConnection]. *)
Definition session_inv (s : session) : Prop :=
  (length (errCh s) ≤ terminated_count s)%nat ∧
  match pc s with
  | AtGetBackend | AtPoolGet _ =>
      backendConn s = None ∧ done s = [] ∧
      to_client s = NotStarted ∧ to_backend s = NotStarted
  | AtGo1 =>
      is_Some (backendConn s) ∧ done s = [] ∧
      to_client s = NotStarted ∧ to_backend s = NotStarted
  | AtGo2 => is_Some (backendConn s) ∧ done s = [] ∧ to_backend s = NotStarted
  | AtReceive => is_Some (backendConn s) ∧ done s = []
  | AtDeferredPut =>
      is_Some (backendConn s) ∧ done s = [] ∧ (1 ≤ terminated_count s)%nat
  | AtDeferredClose =>
      match backendConn s with
      | Some c => done s = [PutBackend c] ∧ (1 ≤ terminated_count s)%nat
      | None => done s = []
      end
  | Returned =>
      match backendConn s with
      | Some c => done s = [CloseClient; PutBackend c] ∧ (1 ≤ terminated_count s)%nat
      | None => done s = [CloseClient]
      end
  end.

(** *** Inputs used in the examples *)

(** One backend, as in the README. *)
Definition demo_cfg : Config.Config :=
  {| Config.Balancer := {| Config.Port := 9000;
                           Config.HealthCheckInterval := 1000000000;
                           Config.FailureThreshold := 8%float |};
     Config.Backends := [{| Config.Host := "127.0.0.1"; Config.BackendPort := 9001;
                            Config.Weight := 1 |}];
     Config.Pool := {| Config.MaxIdle := 2; Config.MaxActive := 2;
                       Config.IdleTimeout := 60000000000 |} |}.

(** Two backends, the host name of the second being the ["host:port"] of
    the first: the ring hands out bare host names and the table is keyed by
    ["host:port"], so these are the configurations in which
    [getHealthyBackend] finds a backend at all. *)
Definition alias_cfg : Config.Config :=
  {| Config.Balancer := {| Config.Port := 9000;
                           Config.HealthCheckInterval := 1000000000;
                           Config.FailureThreshold := 8%float |};
     Config.Backends := [{| Config.Host := "10.0.0.1"; Config.BackendPort := 80;
                            Config.Weight := 1 |};
                         {| Config.Host := "10.0.0.1:80"; Config.BackendPort := 81;
                            Config.Weight := 1 |}];
     Config.Pool := {| Config.MaxIdle := 2; Config.MaxActive := 2;
                       Config.IdleTimeout := 60000000000 |} |}.

(** A balancer put together by hand, whose table is keyed by the bare host
    name, so that [getHealthyBackend] succeeds on every key. *)
Definition hand_balancer : balancer :=
  {| cfg := demo_cfg; pool := Connpool.pool_one; hasher := Hashing.ring_a;
     checker := Health.New 1000000000 8%float;
     backends := {["a" := {| host := "a"; port := 1; weight := 1; health := true |}]} |}.

(** The session of the client [key] on the balancer [New c] under the
    schedule [es]. *)
Definition session_of (c : Config.Config) (key : string) (es : list event) : option session :=
  match New c with
  | inl b => exec b key (start b) es
  | inr _ => None
  end.

Definition client_key : string := "192.168.0.7:50000".

(** The handler picks a backend, gets a connection, starts both copies;
    the copy towards the client ends and signals; the handler receives and
    runs its deferred [Put]. *)
Definition early_release : list event :=
  [Handler 0 (Connpool.dial_ok 1); Handler 10 (Connpool.dial_ok 1);
   Handler 20 (Connpool.dial_ok 1); Handler 30 (Connpool.dial_ok 1);
   CopyReturns true false; Send true;
   Handler 40 (Connpool.dial_ok 1); Handler 50 (Connpool.dial_ok 1)].

(** *** Further operations and invariants *)

(** The backend [New] makes of a configuration entry, and the key it
    stores it under. *)
Definition backend_of (bc : Config.BackendConfig) : backend :=
  {| host := Config.Host bc; port := Config.BackendPort bc;
     weight := Config.Weight bc; health := true |}.

Definition key_of (bc : Config.BackendConfig) : string :=
  host_port (Config.Host bc) (Config.BackendPort bc).

(** The method [updateBackendHealth], on the balancer. *)
Definition update_health (h : string) (healthy : bool) (b : balancer) : balancer :=
  {| cfg := cfg b; pool := pool b; hasher := hasher b; checker := checker b;
     backends := updateBackendHealth h healthy (backends b) |}.

Inductive shutdown_error :=
| ErrClosingListener                     (* "closing listener: %w" *)
| ErrClosingPool (e : Connpool.error).   (* "closing connection pool: %w" *)

(** [Shutdown].  [listener] is [None] for a nil [b.listener], and else
    tells whether its [Close] fails.  The result lists the connections
    closed. *)
Definition Shutdown (listener : option bool) (b : balancer)
    : balancer * list Connpool.Conn * option shutdown_error :=
  match listener with
  | Some true => (b, [], Some ErrClosingListener)
  | _ =>
      let '(p, closed, err) := Connpool.Close (pool b) in
      ({| cfg := cfg b; pool := p; hasher := hasher b; checker := checker b;
          backends := backends b |},
       closed,
       match err with
       | Some e => Some (ErrClosingPool e)
       | None => None
       end)
  end.

(** How the session's pool stands against the balancer's at each point of
    [handleConnection]. *)
Definition session_pool_inv (b : balancer) (s : session) : Prop :=
  Connpool.maxIdle (the_pool s) = Connpool.maxIdle (pool b) ∧
  Connpool.maxActive (the_pool s) = Connpool.maxActive (pool b) ∧
  Connpool.idleTimeout (the_pool s) = Connpool.idleTimeout (pool b) ∧
  match pc s with
  | AtGetBackend | AtPoolGet _ => the_pool s = pool b
  | AtGo1 | AtGo2 | AtReceive | AtDeferredPut =>
      Connpool.active (the_pool s) = Connpool.active (pool b) + 1
  | AtDeferredClose | Returned =>
      Connpool.active (the_pool s) = Connpool.active (pool b)
  end.

(** A session whose backend lookup failed. *)
Definition dropped_inv (b : balancer) (s : session) : Prop :=
  the_pool s = pool b ∧ backendConn s = None ∧
  to_client s = NotStarted ∧ to_backend s = NotStarted ∧ errCh s = [] ∧
  ((pc s = AtGetBackend ∧ done s = []) ∨
   (pc s = AtDeferredClose ∧ done s = []) ∨
   (pc s = Returned ∧ done s = [CloseClient])).

Definition started (x : copy_state) : bool :=
  match x with
  | NotStarted => false
  | _ => true
  end.

(** What the handler can rely on to make its next step. *)
Definition session_live_inv (s : session) : Prop :=
  match pc s with
  | AtGetBackend | AtPoolGet _ =>
      to_client s = NotStarted ∧ to_backend s = NotStarted ∧ errCh s = []
  | AtGo1 =>
      is_Some (backendConn s) ∧
      to_client s = NotStarted ∧ to_backend s = NotStarted ∧ errCh s = []
  | AtGo2 =>
      is_Some (backendConn s) ∧
      started (to_client s) = true ∧ to_backend s = NotStarted ∧
      length (errCh s) = terminated_count s
  | AtReceive =>
      is_Some (backendConn s) ∧
      started (to_client s) = true ∧ started (to_backend s) = true ∧
      length (errCh s) = terminated_count s
  | AtDeferredPut => is_Some (backendConn s)
  | AtDeferredClose | Returned => True
  end.

(** Some continuation of the schedule brings the handler to its return. *)
Definition can_return (b : balancer) (key : string) (s : session) : Prop :=
  ∃ es s', exec b key s es = Some s' ∧ pc s' = Returned.

(** The handler's own step, with a clock and a network of no account. *)
Definition tick : event := Handler 0 (λ _, None).

(** The handler has picked a backend, got a connection and started both
    copies; the copy towards the client is back from [io.Copy]. *)
Definition copy_back : list event :=
  [Handler 0 (Connpool.dial_ok 1); Handler 10 (Connpool.dial_ok 1);
   Handler 20 (Connpool.dial_ok 1); Handler 30 (Connpool.dial_ok 1);
   CopyReturns true false].

(** [early_release] up to the handler's return. *)
Definition whole_session : list event :=
  early_release ++ [Handler 60 (Connpool.dial_ok 1)].

(** The balancer [New] returns for [demo_cfg]. *)
Definition demo_balancer : balancer :=
  {| cfg := demo_cfg;
     pool := {| Connpool.maxIdle := 2; Connpool.maxActive := 2;
                Connpool.idleTimeout := 60000000000; Connpool.active := 0;
                Connpool.idle := ∅ |};
     hasher := Hashing.Add "127.0.0.1" 1 Hashing.New;
     checker := Health.New 1000000000 8%float;
     backends := {["127.0.0.1:9001" :=
                     {| host := "127.0.0.1"; port := 9001; weight := 1; health := true |}]} |}.

End Balancer.


(** * Properties *)

(** ** Machine integers *)

Lemma wrap64_small z : min_int64 ≤ z ≤ max_int64 → wrap64 z = z.
Proof.
  unfold wrap64, min_int64, max_int64. intros Hz.
  rewrite Z.mod_small; lia.
Qed.

Lemma wrap64_range z : min_int64 ≤ wrap64 z ≤ max_int64.
Proof.
  unfold wrap64, min_int64, max_int64.
  pose proof (Z.mod_pos_bound (z + 2 ^ 63) (2 ^ 64)). lia.
Qed.

(** ** The connection pool *)

Section PoolProperties.

Import Connpool.

Implicit Types (p : Pool) (addr : string) (c : Conn) (o : op).

(** *** Construction *)

Lemma New_Ok_iff cfg :
  (∃ p, New cfg = Ok p) ↔ 0 < Config.MaxIdle cfg ∧ 0 < Config.MaxActive cfg.
Proof.
  unfold New.
  destruct (Z.leb_spec (Config.MaxIdle cfg) 0), (Z.leb_spec (Config.MaxActive cfg) 0);
    simpl; split; try lia; try (intros [p Hp]; discriminate); eauto.
Qed.

Lemma New_fields cfg p :
  New cfg = Ok p →
  maxIdle p = Config.MaxIdle cfg ∧ maxActive p = Config.MaxActive cfg ∧
  idleTimeout p = Config.IdleTimeout cfg ∧ active p = 0 ∧ idle p = ∅ ∧
  0 < maxIdle p ∧ 0 < maxActive p.
Proof.
  intros H. assert (Hpos : ∃ q, New cfg = Ok q) by eauto.
  apply New_Ok_iff in Hpos. revert H. unfold New.
  destruct (_ || _); [discriminate|]. intros [= <-]. simpl. tauto.
Qed.

(** The validator of package config does reject what [New] lets through. *)
Lemma validate_rejects_idle_timeout cfg :
  Config.IdleTimeout (Config.Pool cfg) ≤ 0 → Config.validate cfg ≠ None.
Proof.
  intros Hle. unfold Config.validate.
  repeat (match goal with |- context [if ?b then _ else _] => destruct b end;
          [discriminate|]).
  destruct (Config.validate_backends _ _); [discriminate|].
  repeat (match goal with |- context [if ?b then _ else _] => destruct b eqn:? end;
          try discriminate).
  lia.
Qed.

(** *** Frame: what the operations leave alone *)

Lemma createConn_frame dial addr p :
  let p' := (createConn dial addr p).1 in
  maxIdle p' = maxIdle p ∧ maxActive p' = maxActive p ∧
  idleTimeout p' = idleTimeout p ∧ idle p' = idle p.
Proof.
  unfold createConn. destruct (_ >=? _); [done|]. by destruct (dial addr).
Qed.

Lemma Close_fold (m0 m : gmap string (list idleConn)) :
  let r := map_fold (λ addr conns '(m, closed), (delete addr m, closed ++ (conn <$> conns)))
                    (m0, []) m in
  (∀ k, r.1 !! k = match m !! k with Some _ => None | None => m0 !! k end) ∧
  (∀ c, c ∈ r.2 ↔ ∃ addr conns ic, m !! addr = Some conns ∧ ic ∈ conns ∧ conn ic = c).
Proof.
  apply (map_fold_weak_ind (λ r m,
    (∀ k, r.1 !! k = match m !! k with Some _ => None | None => m0 !! k end) ∧
    (∀ c, c ∈ r.2 ↔ ∃ addr conns ic, m !! addr = Some conns ∧ ic ∈ conns ∧ conn ic = c))).
  - split; [done|]. intros c. split; [by intros ?%elem_of_nil|].
    intros (? & ? & ? & ? & _). by simplify_map_eq.
  - intros i x m' [m1 cl] Hi [IH1 IH2]. simpl in *. split.
    + intros k. destruct (decide (i = k)) as [->|Hne].
      * by rewrite lookup_delete_eq, lookup_insert_eq.
      * by rewrite lookup_delete_ne, lookup_insert_ne, IH1.
    + intros c. rewrite elem_of_app, IH2, list_elem_of_fmap. split.
      * intros [(a & cs & ic & Ha & Hic & <-)|(ic & -> & Hic)].
        -- exists a, cs, ic. split_and!; try done.
           rewrite lookup_insert_ne; [done|]. intros ->. congruence.
        -- exists i, x, ic. by rewrite lookup_insert_eq.
      * intros (a & cs & ic & Ha & Hic & <-).
        destruct (decide (i = a)) as [->|Hne].
        -- rewrite lookup_insert_eq in Ha. injection Ha as <-. right. eauto.
        -- rewrite lookup_insert_ne in Ha by done. left. eauto 6.
Qed.

Lemma Close_pool p : (Close p).1.1 = set_idle ∅ p.
Proof.
  unfold Close. pose proof (Close_fold (idle p) (idle p)) as [H1 _].
  destruct (map_fold _ _ _) as [m cl]. simpl in *. f_equal.
  apply map_eq. intros k. rewrite H1, lookup_empty. by destruct (idle p !! k).
Qed.

Lemma Close_closed p c :
  c ∈ (Close p).1.2 ↔ ∃ addr conns ic, idle p !! addr = Some conns ∧ ic ∈ conns ∧ conn ic = c.
Proof.
  unfold Close. pose proof (Close_fold (idle p) (idle p)) as [_ H2].
  destruct (map_fold _ _ _) as [m cl]. apply H2.
Qed.

Lemma Close_result p : (Close p).2 = None.
Proof. unfold Close. by destruct (map_fold _ _ _). Qed.


Lemma Get_frame now dial addr p :
  let p' := (Get now dial addr p).1.1 in
  maxIdle p' = maxIdle p ∧ maxActive p' = maxActive p ∧ idleTimeout p' = idleTimeout p.
Proof.
  unfold Get.
  destruct (idle p !! addr) as [conns|]; [destruct (last conns) as [ic|]|].
  - destruct (_ >? _); [|done].
    pose proof (createConn_frame dial addr
      (set_idle (<[addr:=take (length conns - 1) conns]> (idle p)) p)) as H.
    destruct (createConn _ _ _). simpl in *. tauto.
  - pose proof (createConn_frame dial addr p) as H.
    destruct (createConn _ _ _). simpl in *. tauto.
  - pose proof (createConn_frame dial addr p) as H.
    destruct (createConn _ _ _). simpl in *. tauto.
Qed.

Lemma Put_frame now c p :
  let p' := (Put now c p).1.1 in
  maxIdle p' = maxIdle p ∧ maxActive p' = maxActive p ∧ idleTimeout p' = idleTimeout p.
Proof. unfold Put. destruct (_ <=? _); [done|]. by destruct (_ >=? _). Qed.

Lemma step_frame p o :
  maxIdle (step p o) = maxIdle p ∧ maxActive (step p o) = maxActive p ∧
  idleTimeout (step p o) = idleTimeout p.
Proof.
  destruct o; simpl.
  - apply Get_frame.
  - apply Put_frame.
  - by rewrite Close_pool.
  - done.
Qed.

Lemma run_frame ops p :
  maxIdle (run ops p) = maxIdle p ∧ maxActive (run ops p) = maxActive p ∧
  idleTimeout (run ops p) = idleTimeout p.
Proof.
  revert p. induction ops as [|o ops IH]; intros p; [done|].
  unfold run in *. simpl. destruct (IH (step p o)) as (-> & -> & ->).
  apply step_frame.
Qed.

(** *** The idle cap *)

Lemma idle_capped_nonneg p : idle_capped p → 0 ≤ maxIdle p.
Proof. intros H. specialize (H ""). unfold bucket_len in H. lia. Qed.

Lemma bucket_len_set_active n p addr : bucket_len (set_active n p) addr = bucket_len p addr.
Proof. done. Qed.

Lemma bucket_len_insert m p addr addr' l :
  bucket_len (set_idle (<[addr := l]> m) p) addr' =
  if decide (addr = addr') then Z.of_nat (length l) else bucket_len (set_idle m p) addr'.
Proof.
  unfold bucket_len, bucket. simpl. case_decide as H.
  - subst. by rewrite lookup_insert_eq.
  - by rewrite lookup_insert_ne.
Qed.

Lemma createConn_capped dial addr p :
  idle_capped p → idle_capped (createConn dial addr p).1.
Proof.
  unfold createConn. destruct (_ >=? _); [done|]. by destruct (dial addr).
Qed.

Lemma Get_capped now dial addr p :
  idle_capped p → idle_capped (Get now dial addr p).1.1.
Proof.
  intros Hcap. unfold Get.
  destruct (idle p !! addr) as [conns|] eqn:Hb; [destruct (last conns) as [ic|]|].
  - assert (Hpop : idle_capped (set_idle (<[addr:=take (length conns - 1) conns]> (idle p)) p)).
    { intros a. rewrite bucket_len_insert. case_decide as Ha; [|apply Hcap].
      specialize (Hcap addr). unfold bucket_len, bucket in Hcap.
      rewrite Hb in Hcap. simpl in *. rewrite length_take. lia. }
    destruct (_ >? _); [|done].
    pose proof (createConn_capped dial addr _ Hpop) as H.
    by destruct (createConn _ _ _).
  - pose proof (createConn_capped dial addr _ Hcap) as H.
    by destruct (createConn _ _ _).
  - pose proof (createConn_capped dial addr _ Hcap) as H.
    by destruct (createConn _ _ _).
Qed.

Lemma Put_capped now c p :
  idle_capped p → idle_capped (Put now c p).1.1.
Proof.
  intros Hcap. unfold Put. destruct (_ <=? _); [done|].
  destruct (Z.geb_spec (bucket_len (set_active (wrap64 (active p - 1)) p) (RemoteAddr c))
                       (maxIdle (set_active (wrap64 (active p - 1)) p))) as [Hge|Hlt];
    [done|].
  intros a. simpl in *.
  change (set_idle ?m (set_active ?n p)) with (set_active n (set_idle m p)).
  rewrite bucket_len_set_active, bucket_len_insert. case_decide; [|apply Hcap].
  rewrite length_app. simpl. rewrite bucket_len_set_active in Hlt.
  unfold bucket_len in Hlt. unfold bucket at 1. simpl. 
  change (default [] (idle p !! RemoteAddr c)) with (bucket p (RemoteAddr c)). lia.
Qed.

Lemma cleanup_capped now p :
  idle_capped p → idle_capped (cleanup now p).1.
Proof.
  intros Hcap a. specialize (Hcap a). revert Hcap.
  unfold cleanup, bucket_len, bucket. simpl. rewrite lookup_omap.
  destruct (idle p !! a) as [conns|]; simpl; [|done].
  pose proof (List.filter_length_le (λ ic, negb (stale now p ic)) conns) as Hle.
  destruct (List.filter _ conns); simpl in *; lia.
Qed.

Lemma step_capped p o : idle_capped p → idle_capped (step p o).
Proof.
  intros Hcap. destruct o; simpl.
  - by apply Get_capped.
  - by apply Put_capped.
  - rewrite Close_pool. intros a. apply idle_capped_nonneg in Hcap.
    unfold bucket_len, bucket. simpl. by rewrite lookup_empty.
  - by apply cleanup_capped.
Qed.

Lemma run_capped ops p : idle_capped p → idle_capped (run ops p).
Proof.
  revert p. induction ops as [|o ops IH]; intros p Hcap; [done|].
  apply IH. by apply step_capped.
Qed.

Lemma New_capped cfg p : New cfg = Ok p → idle_capped p.
Proof.
  intros (_ & _ & _ & _ & Hidle & Hpos & _)%New_fields a.
  unfold bucket_len, bucket. rewrite Hidle, lookup_empty. simpl. lia.
Qed.

(** What [Put] does with a full bucket. *)
Lemma Put_full_bucket now c p :
  maxIdle p ≤ bucket_len p (RemoteAddr c) →
  idle (Put now c p).1.1 = idle p ∧
  (0 < active p → (Put now c p).1.2 = [c] ∧ (Put now c p).2 = close_result c).
Proof.
  intros Hfull. unfold Put. destruct (Z.leb_spec (active p) 0) as [Hle|Hgt].
  - split; [done|lia].
  - rewrite bucket_len_set_active. simpl.
    destruct (Z.geb_spec (bucket_len p (RemoteAddr c)) (maxIdle p)); [done|lia].
Qed.


(** The dialing path does respect the cap: [createConn] never takes
    [active] above [maxActive]. *)
Lemma createConn_respects_cap dial addr p :
  active p ≤ maxActive p → maxActive p ≤ max_int64 → min_int64 ≤ active p →
  active (createConn dial addr p).1 ≤ maxActive p.
Proof.
  intros Hle Hmax Hmin. unfold createConn.
  destruct (Z.geb_spec (active p) (maxActive p)); [done|].
  destruct (dial addr); [|done]. simpl. rewrite wrap64_small; lia.
Qed.

(** *** C7 *)

(** C7 (fails on the code).  The claim: pool construction fails whenever
    any of maxIdle, maxActive or idleTimeout is at most zero.  [New] tests
    [MaxIdle] and [MaxActive] only: with [MaxIdle = 1], [MaxActive = 1] and
    [IdleTimeout = 0] (or any negative timeout) it returns a pool and no
    error. *)
Theorem New_accepts_nonpositive_idleTimeout :
  New cfg_no_timeout =
    Ok {| maxIdle := 1; maxActive := 1; idleTimeout := 0; active := 0; idle := ∅ |} ∧
  ∀ t, ∃ p, New {| Config.MaxIdle := 1; Config.MaxActive := 1; Config.IdleTimeout := t |} = Ok p.
Proof.
  split; [reflexivity|]. intros t. apply New_Ok_iff. simpl. lia.
Qed.

(** *** C1 *)

(** C1 (fails on the code).  The claim: from a fresh pool, no sequence of
    Get and Put takes [active] above [maxActive].  With [maxActive = 1]
    the four calls of [over_cap_ops], all Gets and Puts, leave [active = 2]:
    the last Get finds the fresh idle connection [conn_a] and returns it
    through the branch of [Get] that increments [active] without the test
    [createConn] makes. *)
Theorem Get_idle_exceeds_maxActive :
  ∃ p, New cfg_one = Ok p ∧
       forallb is_get_or_put over_cap_ops = true ∧
       active (run over_cap_prefix p) = 1 ∧
       (Get 1000000000 (dial_ok 3) "a:1" (run over_cap_prefix p)).2 = Ok conn_a ∧
       active (run over_cap_ops p) = 2 ∧
       maxActive (run over_cap_ops p) = 1.
Proof. eexists. split; [reflexivity|]. vm_compute. tauto. Qed.

(** *** C8 *)

(** C8.  For a pool built by [New], after any sequence of Get, Put, Close
    and cleanup calls every idle bucket holds at most [maxIdle] entries
    ([maxIdle] being the configured value still); and [Put] on a bucket
    that is at [maxIdle] leaves the buckets as they are, closing the
    connection when it gets past the [active] guard. *)
Theorem pool_idle_cap cfg p ops :
  New cfg = Ok p →
  maxIdle (run ops p) = Config.MaxIdle cfg ∧
  (∀ addr, bucket_len (run ops p) addr ≤ maxIdle (run ops p)) ∧
  (∀ now c, bucket_len (run ops p) (RemoteAddr c) = maxIdle (run ops p) →
     idle (Put now c (run ops p)).1.1 = idle (run ops p) ∧
     (0 < active (run ops p) →
        (Put now c (run ops p)).1.2 = [c] ∧
        (Put now c (run ops p)).2 = close_result c)).
Proof.
  intros HNew. split_and!.
  - destruct (run_frame ops p) as (-> & _). by apply New_fields in HNew as (-> & _).
  - apply run_capped. by eapply New_capped.
  - intros now c Hfull. apply Put_full_bucket. lia.
Qed.

Lemma pool_idle_cap_witness :
  New cfg_one = Ok pool_one ∧
  maxIdle (run over_cap_ops pool_one) = Config.MaxIdle cfg_one ∧
  (∀ addr, bucket_len (run over_cap_ops pool_one) addr ≤ maxIdle (run over_cap_ops pool_one)) ∧
  (∀ now c, bucket_len (run over_cap_ops pool_one) (RemoteAddr c)
              = maxIdle (run over_cap_ops pool_one) →
     idle (Put now c (run over_cap_ops pool_one)).1.1 = idle (run over_cap_ops pool_one) ∧
     (0 < active (run over_cap_ops pool_one) →
        (Put now c (run over_cap_ops pool_one)).1.2 = [c] ∧
        (Put now c (run over_cap_ops pool_one)).2 = close_result c)).
Proof.
  split; [reflexivity|].
  apply (pool_idle_cap cfg_one pool_one over_cap_ops). reflexivity.
Defined.

(** *** C10 *)

(** C10.  [Close] returns nil and a pool that differs from the old one in
    [idle] alone, which is the empty map; the connections it closes are
    the idle ones; a later [Get] or [Put] is a [Get] or [Put] on the pool
    with no idle bucket, so [Get] goes to [createConn] and dials. *)
Theorem Close_frame p :
  (Close p).2 = None ∧
  (Close p).1.1 = set_idle ∅ p ∧
  (active (Close p).1.1 = active p ∧ maxIdle (Close p).1.1 = maxIdle p ∧
   maxActive (Close p).1.1 = maxActive p ∧ idleTimeout (Close p).1.1 = idleTimeout p ∧
   idle (Close p).1.1 = ∅) ∧
  (∀ c, c ∈ (Close p).1.2 ↔
        ∃ addr conns ic, idle p !! addr = Some conns ∧ ic ∈ conns ∧ conn ic = c) ∧
  (∀ now dial addr,
     Get now dial addr (Close p).1.1 =
       ((createConn dial addr (set_idle ∅ p)).1, [], (createConn dial addr (set_idle ∅ p)).2)) ∧
  (∀ now dial addr c,
     active p < maxActive p → dial addr = Some c →
     (Get now dial addr (Close p).1.1).2 = Ok c) ∧
  (∀ now c, Put now c (Close p).1.1 = Put now c (set_idle ∅ p)).
Proof.
  rewrite Close_pool. split_and!; try done.
  - apply Close_result.
  - apply Close_closed.
  - intros now dial addr. unfold Get. simpl. rewrite lookup_empty.
    by destruct (createConn _ _ _).
  - intros now dial addr c Hlt Hdial. unfold Get. simpl. rewrite lookup_empty.
    unfold createConn. simpl. rewrite Hdial.
    destruct (Z.geb_spec (active p) (maxActive p)); [lia|done].
Qed.

End PoolProperties.

Lemma filter_all {A} (P : A → Prop) `{!∀ x, Decision (P x)} (l : list A) :
  Forall P l → filter P l = l.
Proof.
  induction 1 as [|x l Hx _ IH]; [done|].
  by rewrite filter_cons_True, IH.
Qed.

Lemma StronglySorted_lookup_le (l : list Z) (a b : nat) x y :
  StronglySorted Z.le l → (a ≤ b)%nat → l !! a = Some x → l !! b = Some y → x ≤ y.
Proof.
  intros Hs. revert a b. induction Hs as [|z l Hs IH Hall]; intros a b Hab Ha Hb.
  - by rewrite lookup_nil in Ha.
  - destruct a as [|a], b as [|b]; simpl in *; simplify_eq; try lia.
    + rewrite Forall_forall in Hall. apply Hall. by eapply list_elem_of_lookup_2.
    + apply (IH a b); [lia|done..].
Qed.

(** ** The hash ring *)

Section RingProperties.

Import Hashing.

Implicit Types (c : ConsistentHasher) (node key : string) (v i j n : Z).

(** *** The hash function, on known values *)

(** The check value of CRC-32/IEEE. *)
Example hashKey_check_value : hashKey "123456789" = 0xCBF43926.
Proof. reflexivity. Qed.

(** The labels of the virtual nodes 0, 65 and 233 of a host: a NUL byte,
    the letter A, and the two bytes of U+00E9. *)
Example string_of_rune_values :
  bytes_of_string (string_of_rune 0) = [0] ∧
  string_of_rune 65 = "A" ∧
  bytes_of_string (string_of_rune 233) = [0xC3; 0xA9] ∧
  bytes_of_string (string_of_rune 0xD800) = [0xEF; 0xBF; 0xBD].
Proof. by vm_compute. Qed.

(** *** [sort.Search] *)

Lemma shiftr1_mid i j : i < j → i ≤ Z.shiftr (i + j) 1 < j.
Proof.
  intros Hlt. rewrite Z.shiftr_div_pow2 by lia. change (2 ^ 1) with 2.
  split; [apply Z.div_le_lower_bound | apply Z.div_lt_upper_bound]; lia.
Qed.

Lemma search_loop_bounds fuel f i j :
  i ≤ j → i ≤ search_loop fuel f i j ≤ j.
Proof.
  revert i j. induction fuel as [|fuel IH]; intros i j Hij; simpl; [lia|].
  destruct (Z.ltb_spec i j) as [Hlt|]; [|lia].
  pose proof (shiftr1_mid i j Hlt) as Hmid.
  destruct (f _); simpl.
  - specialize (IH i (Z.shiftr (i + j) 1)). lia.
  - specialize (IH (Z.shiftr (i + j) 1 + 1) j). lia.
Qed.

(** The loop has come to its end ([i >= j]) once [j - i] rounds are
    allowed: more fuel changes nothing. *)
Lemma search_loop_fuel fuel fuel' f i j :
  j - i ≤ Z.of_nat fuel → j - i ≤ Z.of_nat fuel' →
  search_loop fuel f i j = search_loop fuel' f i j.
Proof.
  revert fuel' i j. induction fuel as [|fuel IH]; intros [|fuel'] i j H1 H2; simpl;
    try done.
  - destruct (Z.ltb_spec i j); [lia|done].
  - destruct (Z.ltb_spec i j); [lia|done].
  - destruct (Z.ltb_spec i j) as [Hlt|]; [|done].
    pose proof (shiftr1_mid i j Hlt). destruct (f _); simpl; apply IH; lia.
Qed.

Lemma search_loop_ext fuel f g i j n :
  (∀ k, 0 ≤ k < n → f k = g k) → 0 ≤ i → j ≤ n →
  search_loop fuel f i j = search_loop fuel g i j.
Proof.
  intros Hfg. revert i j. induction fuel as [|fuel IH]; intros i j Hi Hj; simpl; [done|].
  destruct (Z.ltb_spec i j) as [Hlt|]; [|done].
  pose proof (shiftr1_mid i j Hlt). rewrite <-Hfg by lia.
  destruct (f _); simpl; apply IH; lia.
Qed.

(** With a predicate that, once true, stays true, the loop returns the
    least index at which it is true, or [j] when there is none. *)
Lemma search_loop_spec fuel f i j :
  (∀ a b, i ≤ a → a ≤ b → b < j → f a = true → f b = true) →
  i ≤ j → j - i ≤ Z.of_nat fuel →
  let r := search_loop fuel f i j in
  i ≤ r ≤ j ∧ (∀ k, i ≤ k < r → f k = false) ∧ (r < j → f r = true).
Proof.
  revert i j. induction fuel as [|fuel IH]; intros i j Hmono Hij Hfuel; cbv zeta; simpl.
  - split_and!; lia.
  - destruct (Z.ltb_spec i j) as [Hlt|]; [|split_and!; lia].
    pose proof (shiftr1_mid i j Hlt) as Hmid.
    set (h := Z.shiftr (i + j) 1) in *.
    destruct (f h) eqn:Hfh; simpl.
    + assert (∀ a b, i ≤ a → a ≤ b → b < h → f a = true → f b = true) as Hmono'
        by (intros a b ????; apply (Hmono a b); (lia || done)).
      destruct (IH i h Hmono' ltac:(lia) ltac:(lia)) as (Hr & Hlow & Hhigh).
      split_and!; [lia|lia|done|]. intros _.
      destruct (decide (search_loop fuel f i h < h)) as [Hl|Hl]; [by apply Hhigh|].
      by replace (search_loop fuel f i h) with h by lia.
    + assert (∀ a b, h + 1 ≤ a → a ≤ b → b < j → f a = true → f b = true) as Hmono'
        by (intros a b ????; apply (Hmono a b); (lia || done)).
      destruct (IH (h + 1) j Hmono' ltac:(lia) ltac:(lia)) as (Hr & Hlow & Hhigh).
      split_and!; [lia|lia| |done]. intros k Hk.
      destruct (decide (k ≤ h)) as [Hle|Hgt]; [|apply Hlow; lia].
      destruct (f k) eqn:Hfk; [|done].
      assert (f h = true) by (apply (Hmono k h); (lia || done)). congruence.
Qed.

Lemma Search_bounds n f : 0 ≤ n → 0 ≤ Search n f ≤ n.
Proof. intros. by apply search_loop_bounds. Qed.

(** [Search] calls its closure on indices of the slice only. *)
Lemma Search_ext n f g : (∀ k, 0 ≤ k < n → f k = g k) → Search n f = Search n g.
Proof. intros. by apply search_loop_ext with n. Qed.

(** *** [Get] *)

Lemma Get_index key c :
  nodes c ≠ [] →
  ∃ v, v ∈ nodes c ∧ Get key c = Some (default "" (hash c !! v)).
Proof.
  intros Hne. unfold Get.
  assert (0 < Z.of_nat (length (nodes c))) as Hlen by (destruct (nodes c); [done|simpl; lia]).
  destruct (Z.eqb_spec (Z.of_nat (length (nodes c))) 0) as [|_]; [lia|].
  set (n := Z.of_nat (length (nodes c))) in *.
  set (idx := Search n _).
  pose proof (Search_bounds n (λ i, nodes c !!! Z.to_nat i >=? hashKey key) ltac:(lia)) as Hb.
  fold idx in Hb.
  set (idx' := if idx =? n then 0 else idx).
  assert (0 ≤ idx' < n) as Hidx.
  { unfold idx'. destruct (Z.eqb_spec idx n); lia. }
  destruct (Z.leb_spec 0 idx'), (Z.ltb_spec idx' n); try lia. simpl.
  exists (nodes c !!! Z.to_nat idx'). split; [|done].
  apply list_elem_of_lookup_total_2. lia.
Qed.

Lemma Get_no_panic key c : is_Some (Get key c).
Proof.
  destruct (decide (nodes c = [])) as [Hnil|Hne].
  - unfold Get. rewrite Hnil. simpl. eauto.
  - destruct (Get_index key c Hne) as (v & _ & ->). eauto.
Qed.


(** [Get] on a sorted ring, for a key whose hash is itself an entry of
    [nodes]: the search stops on an entry equal to that hash. *)
Lemma Get_at_node key c :
  Sorted Z.le (nodes c) → hashKey key ∈ nodes c →
  Get key c = Some (default "" (hash c !! hashKey key)).
Proof.
  intros Hsorted Hin. apply Sorted_StronglySorted in Hsorted; [|apply _].
  apply list_elem_of_lookup in Hin as [p Hp].
  pose proof (lookup_lt_Some _ _ _ Hp) as Hplen.
  unfold Get. set (n := Z.of_nat (length (nodes c))).
  set (h := hashKey key) in *.
  destruct (Z.eqb_spec n 0) as [|_]; [lia|].
  set (f := λ i, nodes c !!! Z.to_nat i >=? h).
  assert (Hf : ∀ k, 0 ≤ k < n → ∃ x, nodes c !! Z.to_nat k = Some x ∧ f k = (x >=? h)).
  { intros k Hk. destruct (lookup_lt_is_Some_2 (nodes c) (Z.to_nat k)) as [x Hx]; [lia|].
    exists x. split; [done|]. unfold f. by rewrite (list_lookup_total_correct _ _ _ Hx). }
  assert (∀ a b, 0 ≤ a → a ≤ b → b < n → f a = true → f b = true) as Hmono.
  { intros a b Ha Hab Hb. destruct (Hf a) as (x & Hx & ->); [lia|].
    destruct (Hf b) as (y & Hy & ->); [lia|].
    pose proof (StronglySorted_lookup_le _ (Z.to_nat a) (Z.to_nat b) x y Hsorted
                  ltac:(lia) Hx Hy).
    intros ?%Z.geb_le. apply Z.geb_le. lia. }
  destruct (search_loop_spec (Z.to_nat n) f 0 n Hmono ltac:(lia) ltac:(lia))
    as (Hr & Hlow & Hhigh).
  fold (Search n f) in *. set (r := Search n f) in *.
  assert (r ≤ Z.of_nat p) as Hrp.
  { destruct (decide (r ≤ Z.of_nat p)) as [|Hgt]; [done|].
    specialize (Hlow (Z.of_nat p) ltac:(lia)).
    destruct (Hf (Z.of_nat p)) as (x & Hx & Hfx); [lia|].
    rewrite Nat2Z.id in Hx. simplify_eq. rewrite Hfx in Hlow.
    by rewrite Z.geb_leb, Z.leb_refl in Hlow. }
  destruct (Z.eqb_spec r n) as [|_]; [lia|].
  destruct (Z.leb_spec 0 r), (Z.ltb_spec r n); try lia. simpl. do 2 f_equal.
  destruct (Hf r) as (x & Hx & Hfx); [lia|].
  rewrite (list_lookup_total_correct _ _ _ Hx).
  rewrite Hhigh in Hfx by lia. symmetry in Hfx. apply Z.geb_le in Hfx.
  pose proof (StronglySorted_lookup_le _ (Z.to_nat r) p x h Hsorted ltac:(lia) Hx Hp).
  by replace x with h by lia.
Qed.


(** *** [Add] *)

Lemma add_vnodes_spec node c l :
  let c' := foldl (add_vnode node) c l in
  weights c' = weights c ∧
  nodes c' = nodes c ++ (vnode node <$> l) ∧
  ∀ v, hash c' !! v = if decide (v ∈ vnode node <$> l) then Some node else hash c !! v.
Proof.
  revert c. induction l as [|i l IH]; intros c; cbv zeta; cbn [foldl].
  - split_and!; [done|by rewrite app_nil_r|]. intros v.
    rewrite decide_False; [done|]. apply not_elem_of_nil.
  - destruct (IH (add_vnode node c i)) as (-> & -> & Hh).
    split_and!; [done| |].
    { change (nodes (add_vnode node c i)) with (nodes c ++ [vnode node i]).
      by rewrite <-app_assoc. }
    intros v. rewrite Hh.
    change (hash (add_vnode node c i)) with (<[vnode node i := node]> (hash c)).
    rewrite fmap_cons.
    destruct (decide (v ∈ vnode node <$> l)) as [Hin|Hnin].
    { rewrite decide_True; [done|]. by apply list_elem_of_further. }
    destruct (decide (v = vnode node i)) as [->|Hne].
    + rewrite lookup_insert_eq, decide_True; [done|]. apply list_elem_of_here.
    + rewrite lookup_insert_ne by done. rewrite decide_False; [done|].
      by intros [?|?]%elem_of_cons.
Qed.

Lemma Add_spec node w c :
  weights (Add node w c) = <[node := w]> (weights c) ∧
  (∀ v, v ∈ nodes (Add node w c) ↔ v ∈ nodes c ∨ v ∈ vnode node <$> replicas w) ∧
  (∀ v, hash (Add node w c) !! v =
        if decide (v ∈ vnode node <$> replicas w) then Some node else hash c !! v).
Proof.
  unfold Add. simpl.
  destruct (add_vnodes_spec node
    {| hash := hash c; nodes := nodes c; weights := <[node:=w]> (weights c) |}
    (replicas w)) as (-> & -> & Hh). simpl in *.
  split_and!; [done| |done].
  intros v. by rewrite merge_sort_Permutation, elem_of_app.
Qed.

Lemma Add_sorted node w c : Sorted Z.le (nodes (Add node w c)).
Proof. unfold Add. simpl. apply (Sorted_merge_sort Z.le). Qed.

Lemma Add_ok node w c : node ≠ "" → ring_ok c → ring_ok (Add node w c).
Proof.
  intros Hne Hok v. destruct (Add_spec node w c) as (Hw & Hn & Hh).
  rewrite Hn, Hh. unfold members. rewrite Hw, dom_insert_L.
  case_decide as Hv.
  - intros _. exists node. split_and!; [done| |done].
    apply elem_of_union_l. by apply elem_of_singleton.
  - intros [Hin|Hin]; [|done]. destruct (Hok v Hin) as (h & ? & ? & ?).
    exists h. split_and!; [done| |done]. by apply elem_of_union_r.
Qed.

Lemma replicas_nonempty w : 0 < w → 100 * w ≤ max_int64 → 0 ∈ replicas w.
Proof.
  intros Hpos Hmax. unfold replicas, replicationFactor.
  rewrite wrap64_small by (unfold min_int64, max_int64 in *; lia).
  apply elem_of_seqZ. lia.
Qed.

Lemma Add_nodes_nonempty node w c :
  0 < w → 100 * w ≤ max_int64 → nodes (Add node w c) ≠ [].
Proof.
  intros Hpos Hmax Hnil. destruct (Add_spec node w c) as (_ & Hn & _).
  assert (vnode node 0 ∈ nodes (Add node w c)) as Hin.
  { apply Hn. right. apply list_elem_of_fmap. exists 0. split; [done|].
    by apply replicas_nonempty. }
  rewrite Hnil in Hin. by apply elem_of_nil in Hin.
Qed.

Lemma build_ok adds : Forall (λ a, a.1 ≠ "") adds → ring_ok (build adds).
Proof.
  induction 1 as [|[h w] adds Hh _ IH]; simpl.
  - intros v Hv. by apply elem_of_nil in Hv.
  - by apply Add_ok.
Qed.

(** On a ring that only ever saw [Add], of hosts with a name, [Get] does
    cover: it returns a named member of the ring. *)
Lemma Get_covers_after_adds adds key :
  Forall (λ a, a.1 ≠ "") adds → nodes (build adds) ≠ [] →
  ∃ h, Get key (build adds) = Some h ∧ h ∈ members (build adds) ∧ h ≠ "".
Proof.
  intros Hadds Hne. destruct (Get_index key _ Hne) as (v & Hv & ->).
  destruct (build_ok adds Hadds v Hv) as (h & -> & ? & ?). eauto.
Qed.

(** *** [Remove] *)

Lemma fold_delete_lookup node (m : gmap Z string) l v :
  foldl (λ h i, delete (vnode node i) h) m l !! v =
  if decide (v ∈ vnode node <$> l) then None else m !! v.
Proof.
  revert m. induction l as [|i l IH]; intros m; cbn [foldl].
  - rewrite decide_False; [done|]. apply not_elem_of_nil.
  - rewrite IH, fmap_cons.
    destruct (decide (v ∈ vnode node <$> l)) as [Hin|Hnin].
    { rewrite decide_True; [done|]. by apply list_elem_of_further. }
    destruct (decide (v = vnode node i)) as [->|Hne].
    + rewrite lookup_delete_eq, decide_True; [done|]. apply list_elem_of_here.
    + rewrite lookup_delete_ne by done. rewrite decide_False; [done|].
      by intros [?|?]%elem_of_cons.
Qed.

(** What [Remove] does to [nodes]: an entry goes exactly when it is not
    one of the hashes just deleted and the map still sends it to [node]. *)
Lemma Remove_nodes node c :
  nodes (Remove node c) =
  filter (λ v, default "" (if decide (v ∈ vnode node <$> replicas (default 0 (weights c !! node)))
                           then None else hash c !! v) ≠ node) (nodes c).
Proof.
  unfold Remove. simpl. apply list_filter_iff. intros v.
  by rewrite fold_delete_lookup.
Qed.

(** So when the entries mapped to [node] are the virtual nodes its weight
    record accounts for, which is the case after [Add node w], the deletion
    from [hash] hides every one of them from the filter and [nodes] comes
    out as it went in. *)
Lemma Remove_keeps_nodes node c :
  node ≠ "" →
  (∀ v, v ∈ nodes c → hash c !! v = Some node →
        v ∈ vnode node <$> replicas (default 0 (weights c !! node))) →
  nodes (Remove node c) = nodes c.
Proof.
  intros Hne Hall. rewrite Remove_nodes.
  apply filter_all. apply Forall_forall. intros v Hv.
  case_decide as Hin; simpl; [done|].
  destruct (hash c !! v) as [h|] eqn:Hh; simpl; [|done].
  intros ->. by apply Hin, Hall.
Qed.

Lemma Remove_hash node c v :
  hash (Remove node c) !! v =
  if decide (v ∈ vnode node <$> replicas (default 0 (weights c !! node)))
  then None else hash c !! v.
Proof. unfold Remove. simpl. apply fold_delete_lookup. Qed.

(** Removing a host the ring does not know, and which no entry is mapped
    to, changes nothing. *)
Lemma Remove_unknown node c :
  weights c !! node = None →
  (∀ v, v ∈ nodes c → default "" (hash c !! v) ≠ node) →
  Remove node c = c.
Proof.
  intros Hw Hall. destruct c as [h ns ws]. unfold Remove. simpl in *.
  rewrite Hw. simpl. unfold replicas, replicationFactor. simpl.
  f_equal.
  - apply filter_all. by apply Forall_forall.
  - by apply delete_id.
Qed.


(** After [Add node w] on a ring that had no entry for [node], [Remove node]
    takes no entry out of [nodes], whatever the weight. *)
Lemma Remove_after_Add_keeps_nodes node w c :
  node ≠ "" →
  (∀ v, v ∈ nodes c → hash c !! v ≠ Some node) →
  nodes (Remove node (Add node w c)) = nodes (Add node w c).
Proof.
  intros Hne Hfresh. apply Remove_keeps_nodes; [done|].
  destruct (Add_spec node w c) as (Hw & Hn & Hh).
  intros v Hv Hmap. rewrite Hw, lookup_insert_eq. simpl.
  rewrite Hh in Hmap. case_decide as Hin; [done|].
  apply Hn in Hv as [Hv|Hv]; [|done]. by destruct (Hfresh v Hv).
Qed.

(** The defect of [Remove], for any host and weight: after [Add node w]
    and [Remove node] the key made of the host name and a NUL byte, which
    is the label of its first virtual node, is sent to the empty string. *)
Lemma Get_dangling_after_Remove node w c :
  node ≠ "" → 0 < w → 100 * w ≤ max_int64 →
  (∀ v, v ∈ nodes c → hash c !! v ≠ Some node) →
  Get (node +:+ string_of_rune 0) (Remove node (Add node w c)) = Some "".
Proof.
  intros Hne Hpos Hmax Hfresh.
  destruct (Add_spec node w c) as (Hw & Hn & Hh).
  assert (vnode node 0 ∈ vnode node <$> replicas w) as Hv.
  { apply list_elem_of_fmap. exists 0. split; [done|]. by apply replicas_nonempty. }
  rewrite Get_at_node.
  - fold (vnode node 0). rewrite Remove_hash, Hw, lookup_insert_eq. simpl.
    by rewrite decide_True.
  - rewrite Remove_after_Add_keeps_nodes by done. apply Add_sorted.
  - rewrite Remove_after_Add_keeps_nodes by done. apply Hn. by right.
Qed.

(** *** C2 *)

(** C2 (fails on the code).  The claim: after [Remove h] no entry of
    [nodes] is a virtual node of [h].  On the ring [Add "a" 1 New],
    [Remove "a"] empties [hash] and [weights] and leaves [nodes] as it was:
    all hundred virtual nodes of ["a"] are still in it.  [Remove] deletes
    the hashes from [hash] first, so the test [c.hash[v] != node] that
    rebuilds [nodes] reads the zero value [""] for each of them and keeps
    them. *)
Theorem Remove_leaves_virtual_nodes :
  "a" ∈ members ring_a ∧
  length (nodes ring_a) = 100%nat ∧
  nodes (Remove "a" ring_a) = nodes ring_a ∧
  Forall (λ i, vnode "a" i ∈ nodes (Remove "a" ring_a)) (replicas 1) ∧
  hash (Remove "a" ring_a) = ∅ ∧
  weights (Remove "a" ring_a) = ∅.
Proof.
  split_and!.
  - apply elem_of_dom. exists 1. by vm_compute.
  - by vm_compute.
  - apply Remove_after_Add_keeps_nodes; [done|]. intros v Hv. by apply elem_of_nil in Hv.
  - apply (bool_decide_unpack _). by vm_compute.
  - by vm_compute.
  - by vm_compute.
Qed.

(** *** C4 *)

(** C4 (fails on the code).  The claim: on a ring with a member, [Get]
    returns a non-empty string that is a member.  On the ring made by
    [Add "a" 1], [Add "b" 1], [Remove "a"], whose only member is ["b"],
    [Get "0"] returns the empty string, and so does [Get] of the label of
    the first virtual node of ["a"]: the search lands on a virtual node of
    ["a"] that [Remove] left in [nodes] and that [hash] no longer maps. *)
Theorem Get_empty_after_Remove :
  elements (members ring_b) = ["b"] ∧
  Get "0" ring_b = Some "" ∧
  Get ("a" +:+ string_of_rune 0) ring_b = Some "" ∧
  length (nodes ring_b) = 200%nat ∧
  size (hash ring_b) = 100%nat.
Proof. by vm_compute. Qed.

End RingProperties.

(** ** The health checker *)

Section FloatFacts.

(** A threshold as [Health.New] stores it is positive or a NaN. *)
Lemma threshold_positive t :
  PrimFloat.is_nan t = false →
  PrimFloat.ltb 0 (if PrimFloat.leb t 0 then Health.defaultPhiThreshold else t) = true.
Proof.
  unfold PrimFloat.is_nan. rewrite FloatAxioms.leb_spec, FloatAxioms.eqb_spec. intros Hnan.
  destruct (SFleb (Prim2SF t) (Prim2SF 0)) eqn:Hle; [reflexivity|].
  rewrite FloatAxioms.ltb_spec. revert Hnan Hle. change (Prim2SF 0) with (S754_zero false).
  destruct (Prim2SF t) as [s|s| |s m e]; try destruct s; try discriminate; reflexivity.
Qed.

Lemma threshold_nan t :
  PrimFloat.is_nan t = true →
  PrimFloat.ltb 0 (if PrimFloat.leb t 0 then Health.defaultPhiThreshold else t) = false.
Proof.
  unfold PrimFloat.is_nan. rewrite FloatAxioms.leb_spec, FloatAxioms.eqb_spec. intros Hnan.
  assert (Prim2SF t = S754_nan) as Ht.
  { revert Hnan. destruct (Prim2SF t) as [[]|[]| |[] m e]; try done;
      unfold SFeqb, SFcompare; rewrite Z.compare_refl, Pos.compare_refl; done. }
  rewrite Ht. simpl. by rewrite FloatAxioms.ltb_spec, Ht.
Qed.

End FloatFacts.

Section CheckerProperties.

Import Health.

Implicit Types (c : Checker) (host : string) (o : record_op).

(** *** Which hosts have a history *)

Lemma recordFailure_histories now host c :
  histories (recordFailure now host c) = histories c.
Proof. done. Qed.

Lemma recordSuccess_histories_ne now host d c host' :
  host ≠ host' →
  histories (recordSuccess now host d c) !! host' = histories c !! host'.
Proof.
  intros Hne. unfold recordSuccess. simpl. rewrite lookup_insert_ne by done.
  destruct (histories c !! host); [done|]. by rewrite lookup_insert_ne.
Qed.

Lemma recordSuccess_history now host d c :
  histories (recordSuccess now host d c) !! host =
  Some (record_sample d (default new_history (histories c !! host))).
Proof.
  unfold recordSuccess. simpl. rewrite lookup_insert_eq.
  destruct (histories c !! host) eqn:H; [by rewrite H|].
  by rewrite lookup_insert_eq.
Qed.

Lemma record_step_threshold c o : phiThreshold (record_step c o) = phiThreshold c.
Proof. by destruct o. Qed.

Lemma records_threshold ops c : phiThreshold (foldl record_step c ops) = phiThreshold c.
Proof.
  revert c. induction ops as [|o ops IH]; intros c; simpl; [done|].
  by rewrite IH, record_step_threshold.
Qed.

Lemma records_no_history host ops c :
  forallb (λ o, negb (is_success_for host o)) ops = true →
  histories c !! host = None →
  histories (foldl record_step c ops) !! host = None.
Proof.
  revert c. induction ops as [|o ops IH]; intros c Hops Hc;
    cbn [foldl forallb] in *; [done|].
  apply andb_prop in Hops as [Ho Hops]. apply IH; [done|].
  destruct o as [now h d|now h]; cbn [record_step is_success_for] in *; [|done].
  apply negb_true_iff, bool_decide_eq_false in Ho.
  by rewrite recordSuccess_histories_ne.
Qed.

Section WithMath.

Variables Erf Log10 : float → float.

Lemma phi_no_history now host c :
  histories c !! host = None → phi Erf Log10 now host c = 0%float.
Proof. intros H. unfold phi. rewrite H. by destruct (lastCheck c !! host). Qed.

(** *** C9 *)

(** C9, amended.  On a checker made by [New interval t] and updated by any
    calls of [recordSuccess] and [recordFailure], none of them a
    [recordSuccess] for [host]: [phi host] is [0.0] at every time, and
    [IsHealthy host] is true exactly when [t] is not a NaN.  (A threshold
    [t <= 0] is replaced by [8.0]; a NaN is kept, and [0.0 < NaN] is
    false.) *)
Theorem phi_zero_without_success interval t ops now host :
  forallb (λ o, negb (is_success_for host o)) ops = true →
  phi Erf Log10 now host (foldl record_step (New interval t) ops) = 0%float ∧
  IsHealthy Erf Log10 now host (foldl record_step (New interval t) ops) =
    negb (PrimFloat.is_nan t).
Proof.
  intros Hops.
  assert (phi Erf Log10 now host (foldl record_step (New interval t) ops) = 0%float) as Hphi.
  { apply phi_no_history, records_no_history; [done|]. apply lookup_empty. }
  split; [done|]. unfold IsHealthy. rewrite Hphi, records_threshold. simpl.
  destruct (PrimFloat.is_nan t) eqn:Hnan; simpl.
  - by apply threshold_nan.
  - by apply threshold_positive.
Qed.

End WithMath.

Lemma phi_zero_without_success_witness :
  phi (λ x, x) (λ x, x) 7000000000 "10.0.0.1:80"
      (foldl record_step (New 1000000000 0.5%float)
             [RecFailure 1000000000 "10.0.0.1:80"; RecSuccess 1000000000 "10.0.0.2:80" 350000;
              RecFailure 2000000000 "10.0.0.1:80"]) = 0%float ∧
  IsHealthy (λ x, x) (λ x, x) 7000000000 "10.0.0.1:80"
      (foldl record_step (New 1000000000 0.5%float)
             [RecFailure 1000000000 "10.0.0.1:80"; RecSuccess 1000000000 "10.0.0.2:80" 350000;
              RecFailure 2000000000 "10.0.0.1:80"]) = negb (PrimFloat.is_nan 0.5%float).
Proof.
  apply (phi_zero_without_success (λ x, x) (λ x, x) 1000000000 0.5%float
           [RecFailure 1000000000 "10.0.0.1:80"; RecSuccess 1000000000 "10.0.0.2:80" 350000;
            RecFailure 2000000000 "10.0.0.1:80"] 7000000000 "10.0.0.1:80").
  reflexivity.
Defined.

(** C9 as stated fails: a checker made with a NaN threshold, which
    [validate] lets through, calls a host with one failed check and no
    history unhealthy. *)
Lemma unhealthy_with_nan_threshold :
  IsHealthy (λ x, x) (λ x, x) 7000000000 "10.0.0.1:80"
    (recordFailure 1000000000 "10.0.0.1:80" (New 1000000000 nan)) = false.
Proof. reflexivity. Qed.

Lemma validate_accepts_nan_threshold :
  Config.validate
    {| Config.Balancer := {| Config.Port := 9000;
                             Config.HealthCheckInterval := 1000000000;
                             Config.FailureThreshold := nan |};
       Config.Backends := Config.Backends Balancer.demo_cfg;
       Config.Pool := Config.Pool Balancer.demo_cfg |} = None.
Proof. reflexivity. Qed.

(** *** The hosts a tick probes *)

Lemma checkAll_no_history {S : Type} (f : string → bool → S → S) now probe c s :
  histories c = ∅ → checkAll f now probe c s = (c, s).
Proof.
  intros H. unfold checkAll, known_hosts. by rewrite H, map_to_list_empty.
Qed.

Lemma Start_no_history {S : Type} (f : string → bool → S → S) ticks c s :
  histories c = ∅ → Start f ticks c s = (c, s).
Proof.
  intros H. unfold Start. induction ticks as [|[now probe] ticks IH]; simpl; [done|].
  by rewrite checkAll_no_history.
Qed.


(** *** The sample buffer and the mean *)

Lemma updateStats_fields h :
  times (updateStats h) = times h ∧ index (updateStats h) = index h ∧
  count (updateStats h) = count h.
Proof. unfold updateStats. by destruct (count h =? 0). Qed.

Lemma updateStats_mean h :
  count h ≠ 0 →
  mean (updateStats h) = wrap64 (Z.quot (foldl (λ s d, wrap64 (s + d)) 0 (live h)) (count h)).
Proof.
  intros Hc. unfold updateStats. by destruct (Z.eqb_spec (count h) 0).
Qed.

Lemma live_prefix (ds r : list Z) ts n :
  ts = ds ++ r → n = Z.of_nat (length ds) →
  (λ i, ts !!! Z.to_nat i) <$> seqZ 0 n = ds.
Proof.
  intros -> ->. unfold seqZ. rewrite Nat2Z.id, <-list_fmap_compose.
  apply list_eq. intros i. rewrite list_lookup_fmap.
  destruct (decide (i < length ds)%nat) as [Hlt|Hge].
  - rewrite lookup_seq_lt by done. simpl.
    replace (Z.to_nat (Z.of_nat i + 0)) with i by lia.
    rewrite lookup_total_app_l by done.
    destruct (lookup_lt_is_Some_2 ds i Hlt) as [x Hx].
    rewrite Hx. f_equal. by apply list_lookup_total_correct.
  - rewrite lookup_seq_ge by lia. simpl. symmetry. apply lookup_ge_None. lia.
Qed.

(** The history of a host after its first [n] successful checks, for
    [n] up to [sampleSize]: the samples sit in the first [n] slots in the
    order they came, [count] is [n], and the two loops of [updateStats]
    read exactly them. *)
Lemma record_samples_layout (ds : list Z) :
  Z.of_nat (length ds) ≤ sampleSize →
  let h := foldl (λ h d, record_sample d h) new_history ds in
  count h = Z.of_nat (length ds) ∧
  index h = Z.of_nat (length ds) `rem` sampleSize ∧
  times h = ds ++ replicate (Z.to_nat sampleSize - length ds) 0 ∧
  live h = ds.
Proof.
  unfold sampleSize. induction ds as [|d ds IH] using rev_ind; intros Hlen; cbv zeta.
  - split_and!; try done.
  - rewrite length_app in Hlen. simpl in Hlen.
    rewrite foldl_app. cbn [foldl].
    destruct IH as (Hc & Hi & Ht & _); [lia|].
    set (h := foldl _ new_history ds) in *.
    unfold record_sample.
    destruct (updateStats_fields
      {| times := <[Z.to_nat (index h):=d]> (times h);
         index := (wrap64 (index h + 1)) `rem` sampleSize;
         count := if count h <? sampleSize then wrap64 (count h + 1) else count h;
         mean := mean h; stdDev := stdDev h |}) as (Ht' & Hi' & Hc').
    simpl in *. unfold sampleSize in *.
    assert (index h = Z.of_nat (length ds)) as Hidx.
    { rewrite Hi. apply Z.rem_small. lia. }
    assert (Hcount : count (updateStats
      {| times := <[Z.to_nat (index h):=d]> (times h);
         index := (wrap64 (index h + 1)) `rem` 1000;
         count := if count h <? 1000 then wrap64 (count h + 1) else count h;
         mean := mean h; stdDev := stdDev h |}) = Z.of_nat (length (ds ++ [d]))).
    { rewrite Hc', Hc, length_app. simpl.
      destruct (Z.ltb_spec (Z.of_nat (length ds)) 1000); [|lia].
      rewrite wrap64_small; unfold min_int64, max_int64; lia. }
    assert (Htimes : times (updateStats
      {| times := <[Z.to_nat (index h):=d]> (times h);
         index := (wrap64 (index h + 1)) `rem` 1000;
         count := if count h <? 1000 then wrap64 (count h + 1) else count h;
         mean := mean h; stdDev := stdDev h |}) =
      (ds ++ [d]) ++ replicate (Z.to_nat 1000 - length (ds ++ [d])) 0).
    { rewrite Ht', Ht, Hidx, Nat2Z.id, length_app. simpl.
      rewrite insert_app_r_alt by lia. rewrite Nat.sub_diag.
      replace (Z.to_nat 1000 - length ds)%nat
        with (S (Z.to_nat 1000 - (length ds + 1)))%nat by lia.
      simpl. by rewrite <-app_assoc. }
    split_and!; [done| |done|].
    + rewrite Hi', Hidx, length_app. simpl.
      rewrite wrap64_small by (unfold min_int64, max_int64; lia).
      f_equal. lia.
    + unfold live. eapply live_prefix; [exact Htimes|exact Hcount].
Qed.

(** Three samples of 100, 200 and 400 ns: the mean is 700/3 truncated, and
    the deviation the truncated square root of 46667/3. *)
Example stats_three_samples :
  let h := foldl (λ h d, record_sample d h) new_history [100; 200; 400] in
  (count h, index h, mean h, stdDev h) = (3, 3, 233, 124).
Proof. by vm_compute. Qed.

(** No partial sum leaves the 64-bit range when every sample is within
    [sample_bound] of zero. *)
Lemma sum_no_wrap (ds : list Z) :
  Z.of_nat (length ds) ≤ sampleSize →
  Forall (λ d, - sample_bound ≤ d ≤ sample_bound) ds →
  foldl (λ s d, wrap64 (s + d)) 0 ds = foldr Z.add 0 ds ∧
  - sample_bound * Z.of_nat (length ds) ≤ foldr Z.add 0 ds ≤ sample_bound * Z.of_nat (length ds).
Proof.
  unfold sampleSize, sample_bound.
  induction ds as [|d ds IH] using rev_ind; intros Hlen Hall.
  - simpl. lia.
  - rewrite length_app in *. simpl in Hlen.
    apply Forall_app in Hall as [Hall Hd]. apply Forall_inv in Hd.
    destruct IH as [IH1 IH2]; [lia|done|].
    rewrite foldl_app, foldr_app. cbn [foldl foldr]. rewrite IH1.
    assert (foldr Z.add (d + 0) ds = foldr Z.add 0 ds + d) as ->.
    { clear. induction ds as [|x ds IH]; simpl; lia. }
    split; [|simpl; lia].
    apply wrap64_small. unfold min_int64, max_int64. lia.
Qed.

(** The integer half of the statistics: after the first [n <= sampleSize]
    successful checks of a host, with samples [ds] in that range, the
    cached mean is the sum of [ds] divided by [n], the quotient truncated
    towards zero. *)
Lemma mean_after_samples (ds : list Z) :
  ds ≠ [] →
  Z.of_nat (length ds) ≤ sampleSize →
  Forall (λ d, - sample_bound ≤ d ≤ sample_bound) ds →
  mean (foldl (λ h d, record_sample d h) new_history ds) =
    Z.quot (foldr Z.add 0 ds) (Z.of_nat (length ds)).
Proof.
  intros Hne Hlen Hall.
  destruct ds as [|d ds _] using rev_ind; [done|].
  rewrite foldl_app. cbn [foldl]. unfold record_sample at 1.
  pose proof (record_samples_layout (ds ++ [d]) Hlen) as (Hc & _ & _ & Hlive).
  rewrite foldl_app in Hc, Hlive. cbn [foldl] in Hc, Hlive.
  unfold record_sample at 1 in Hc. unfold record_sample at 1 in Hlive.
  destruct (updateStats_fields
    {| times := <[Z.to_nat (index (foldl (λ h d, record_sample d h) new_history ds)):=d]>
                  (times (foldl (λ h d, record_sample d h) new_history ds));
       index := (wrap64 (index (foldl (λ h d, record_sample d h) new_history ds) + 1))
                  `rem` sampleSize;
       count := if count (foldl (λ h d, record_sample d h) new_history ds) <? sampleSize
                then wrap64 (count (foldl (λ h d, record_sample d h) new_history ds) + 1)
                else count (foldl (λ h d, record_sample d h) new_history ds);
       mean := mean (foldl (λ h d, record_sample d h) new_history ds);
       stdDev := stdDev (foldl (λ h d, record_sample d h) new_history ds) |})
    as (Ht' & _ & Hc').
  set (h1 := {| times := _ |}) in *.
  assert (count h1 = Z.of_nat (length (ds ++ [d]))) as Hc1 by congruence.
  assert (live h1 = ds ++ [d]) as Hl1.
  { unfold live in *. by rewrite <-Ht', <-Hc'. }
  rewrite updateStats_mean by (rewrite Hc1, length_app; simpl; lia).
  rewrite Hl1, Hc1.
  destruct (sum_no_wrap (ds ++ [d]) Hlen Hall) as [-> Hb].
  apply wrap64_small.
  assert (0 < Z.of_nat (length (ds ++ [d]))) as Hpos by (rewrite length_app; simpl; lia).
  unfold sampleSize, sample_bound, min_int64, max_int64 in *.
  assert (Z.abs (foldr Z.add 0 (ds ++ [d]) ÷ Z.of_nat (length (ds ++ [d])))
          ≤ Z.abs (foldr Z.add 0 (ds ++ [d]))).
  { rewrite <-Z.quot_abs by lia.
    rewrite (Z.abs_eq (Z.of_nat _)) by lia.
    rewrite Z.quot_div_nonneg by lia.
    apply Z.div_le_upper_bound; nia. }
  lia.
Qed.


Lemma records_history host ops c :
  default new_history (histories (foldl record_step c ops) !! host) =
  foldl (λ h d, record_sample d h) (default new_history (histories c !! host))
        (durations_for host ops).
Proof.
  revert c. induction ops as [|o ops IH]; intros c; [done|].
  cbn [foldl]. rewrite IH. destruct o as [now h d|now h]; cbn [durations_for omap list_omap record_step].
  - destruct (decide (h = host)) as [->|Hne].
    + by rewrite recordSuccess_history.
    + by rewrite recordSuccess_histories_ne.
  - done.
Qed.

End CheckerProperties.

(** ** The dispatcher *)

Section DispatcherProperties.

Import Balancer.

(** *** One client connection *)

Ltac session_auto :=
  repeat match goal with
         | H : _ ∧ _ |- _ => destruct H
         | H : is_Some (Some _) |- _ => clear H
         | H : is_Some None |- _ => by destruct H
         end;
  simplify_eq; simpl in *; repeat split; eauto; try lia; try done.

Section SessionProperties.

Variables (b : balancer) (key : string).

Lemma start_inv : session_inv (start b).
Proof. split; simpl; [lia|done]. Qed.

Lemma step_inv s e s' : session_inv s → step b key s e = Some s' → session_inv s'.
Proof.
  destruct s as [x p bc tc tb ch dn]. unfold session_inv, terminated_count.
  intros [Hch Hpc] Hstep. simpl in Hch, Hpc.
  destruct e as [now dial|first failed|first]; simpl in Hstep.
  - destruct x; simpl in *.
    + destruct (getHealthyBackend key b); simplify_eq; simpl; session_auto.
    + destruct (Connpool.Get _ _ _ _) as [[p' cl] [c|err]]; simplify_eq; simpl;
        session_auto.
    + simplify_eq; simpl. destruct Hpc as (? & ? & -> & ->). simpl in *. session_auto.
    + simplify_eq; simpl. destruct Hpc as (? & ? & ->).
      destruct tc; simpl in *; session_auto.
    + destruct ch as [|r rest]; simplify_eq; simpl in *.
      destruct tc, tb; simpl in *; split_and!; try tauto; lia.
    + destruct bc as [c|]; simplify_eq; simpl. session_auto.
    + simplify_eq; simpl. destruct bc; session_auto.
    + done.
  - unfold get_copy in Hstep. destruct first; simpl in Hstep.
    + destruct tc; simplify_eq; simpl. destruct x, tb; simpl in *; session_auto.
    + destruct tb; simplify_eq; simpl. destruct x, tc; simpl in *; session_auto.
  - unfold get_copy in Hstep. destruct first; simpl in Hstep.
    + destruct tc; try done. destruct (_ <? _)%nat; simplify_eq; simpl.
      rewrite length_app. simpl.
      destruct x, tb, bc; simpl in *; split_and!; try session_auto; try lia.
    + destruct tb; try done. destruct (_ <? _)%nat; simplify_eq; simpl.
      rewrite length_app. simpl.
      destruct x, tc, bc; simpl in *; split_and!; try session_auto; try lia.
Qed.

Lemma exec_inv s es s' : session_inv s → exec b key s es = Some s' → session_inv s'.
Proof.
  revert s. induction es as [|e es IH]; intros s Hinv; simpl.
  - by intros [= <-].
  - destruct (step b key s e) as [s1|] eqn:Hstep; [|done].
    apply IH. by eapply step_inv.
Qed.


(** *** C6 *)

(** C6, amended.  In every state a client session can reach, under any
    schedule: if the backend connection has been released then at least
    one of the two copy goroutines has run to its end (the handler waits
    for the first signal on [errCh] only); and once the handler has
    returned it has released the backend connection it acquired, once, and
    then closed the client connection, or only closed the client
    connection when it acquired none. *)
Theorem release_after_first_copy es s :
  exec b key (start b) es = Some s →
  (has_released s = true → (1 ≤ terminated_count s)%nat) ∧
  (pc s = Returned →
     done s = match backendConn s with
              | Some c => [CloseClient; PutBackend c]
              | None => [CloseClient]
              end).
Proof.
  intros Hexec. pose proof (exec_inv _ _ _ start_inv Hexec) as [_ Hpc].
  unfold has_released. split.
  - destruct (pc s), (backendConn s); session_auto;
      match goal with H : done s = _ |- _ => rewrite H in * end; done.
  - intros Hret. rewrite Hret in Hpc. destruct (backendConn s); session_auto.
Qed.

End SessionProperties.

Lemma release_after_first_copy_witness :
  ∃ s, exec hand_balancer client_key (start hand_balancer) early_release = Some s ∧
       has_released s = true ∧ (1 ≤ terminated_count s)%nat.
Proof.
  eexists. split; [vm_compute; reflexivity|]. split; [reflexivity|].
  refine (proj1 (release_after_first_copy hand_balancer client_key early_release _ _) _);
    vm_compute; reflexivity.
Defined.

(** C6 as stated fails: on the balancer of [alias_cfg], under the schedule
    [early_release], the handler has called [Put] on the backend connection
    while the copy towards the backend is still inside [io.Copy]. *)
Lemma release_before_second_copy_ends :
  ∃ s, session_of alias_cfg client_key early_release = Some s ∧
       has_released s = true ∧
       to_client s = Terminated ∧
       to_backend s = Copying.
Proof. eexists. split; [by vm_compute|]. by vm_compute. Qed.

(** *** The detector and the table of backends *)

Lemma New_inv c b :
  New c = inl b →
  Health.histories (checker b) = ∅ ∧
  backends b = (foldl add_backend (∅, Hashing.New) (Config.Backends c)).1 ∧
  hasher b = (foldl add_backend (∅, Hashing.New) (Config.Backends c)).2.
Proof.
  unfold New. destruct (Connpool.New _); [|done].
  destruct (foldl _ _ _) as [bs hs]. by intros [= <-].
Qed.

(** A balancer as [New] makes it has no history for any host, so its
    detector has no host to probe, at the first tick and at every later
    one: the only place a history is created is [recordSuccess], which
    runs after a probe. *)
Lemma detector_idle c b ticks :
  New c = inl b →
  Health.known_hosts (checker b) = [] ∧ run_detector ticks b = b.
Proof.
  intros (Hh & _ & _)%New_inv. split.
  - unfold Health.known_hosts. by rewrite Hh, map_to_list_empty.
  - unfold run_detector. rewrite Start_no_history by done. by destruct b.
Qed.

(** *** C3 *)

(** C3 (fails on the code).  The claim: each tick probes every configured
    backend and reports it to the callback.  For the one-backend
    configuration [demo_cfg], which [validate] accepts, the balancer [New]
    returns has the backend in its table, marked healthy, and a detector
    whose list of hosts is empty; whatever the ticks and whatever the
    network answers, [Start] probes nothing, calls the callback never and
    leaves the balancer as it is. *)
Theorem detector_probes_no_host :
  Config.validate demo_cfg = None ∧
  ∃ b, New demo_cfg = inl b ∧
       backends b !! "127.0.0.1:9001" =
         Some {| host := "127.0.0.1"; port := 9001; weight := 1; health := true |} ∧
       Health.known_hosts (checker b) = [] ∧
       ∀ ticks, run_detector ticks b = b.
Proof.
  split; [reflexivity|].
  destruct (New demo_cfg) as [b|e] eqn:HNew; [|by vm_compute in HNew].
  exists b. split; [done|]. split_and!.
  - destruct (New_inv _ _ HNew) as (_ & -> & _). by vm_compute.
  - apply (detector_idle demo_cfg b [] HNew).
  - intros ticks. apply (detector_idle demo_cfg b ticks HNew).
Qed.

End DispatcherProperties.

(** * Further properties of the code *)

(** ** Validation of a configuration *)

Section ConfigValidation.

Import Config.

Lemma leb_zero_false t :
  PrimFloat.leb t 0 = false ↔ PrimFloat.ltb 0 t = true ∨ PrimFloat.is_nan t = true.
Proof.
  unfold PrimFloat.is_nan.
  rewrite FloatAxioms.leb_spec, FloatAxioms.ltb_spec, FloatAxioms.eqb_spec.
  change (Prim2SF 0) with (S754_zero false).
  destruct (Prim2SF t) as [[]|[]| |[] m e]; simpl;
    unfold SFleb, SFltb, SFeqb, SFcompare; simpl;
    rewrite ?Z.compare_refl, ?Pos.compare_refl; simpl; intuition congruence.
Qed.

Lemma validate_backends_None i bs :
  validate_backends i bs = None ↔ Forall backend_ok bs.
Proof.
  revert i. induction bs as [|b bs IH]; intros i; simpl.
  - split; [constructor|done].
  - rewrite Forall_cons. unfold backend_ok at 1.
    destruct (String.eqb_spec (Host b) "") as [He|Hne].
    { split; [done|]. intros [[? _] _]. done. }
    destruct (Z.leb_spec (BackendPort b) 0).
    { split; [done|]. intros [(_ & ? & _) _]. lia. }
    destruct (Z.leb_spec (Weight b) 0).
    { split; [done|]. intros [(_ & _ & ?) _]. lia. }
    rewrite IH. intuition.
Qed.

(** X1.  [validate] accepts a configuration exactly when the listen port,
    the check interval, the three pool settings and every backend's port
    and weight are positive, every backend has a host name, there is a
    backend, and the failure threshold is above zero or not a number (the
    test [FailureThreshold <= 0] is false for a NaN). *)
Theorem validate_accepts_iff cfg :
  validate cfg = None ↔
  0 < Port (Balancer cfg) ∧
  0 < HealthCheckInterval (Balancer cfg) ∧
  (PrimFloat.ltb 0 (FailureThreshold (Balancer cfg)) = true ∨
   PrimFloat.is_nan (FailureThreshold (Balancer cfg)) = true) ∧
  Backends cfg ≠ [] ∧
  Forall backend_ok (Backends cfg) ∧
  0 < MaxIdle (Pool cfg) ∧ 0 < MaxActive (Pool cfg) ∧ 0 < IdleTimeout (Pool cfg).
Proof.
  unfold validate. rewrite <-leb_zero_false, <-(validate_backends_None 0).
  destruct (Z.leb_spec (Port (Balancer cfg)) 0); [split; [done|lia]|].
  destruct (Z.leb_spec (HealthCheckInterval (Balancer cfg)) 0); [split; [done|lia]|].
  destruct (PrimFloat.leb _ 0); [split; [done|intros (_ & _ & ? & _); done]|].
  destruct (Backends cfg) as [|b bs] eqn:Hbs; cbn [length Nat.eqb].
  { split; [done|]. intros (_ & _ & _ & ? & _). done. }
  destruct (validate_backends 0 (b :: bs)); [split; [done|intros (_ & _ & _ & _ & ? & _); done]|].
  destruct (Z.leb_spec (MaxIdle (Pool cfg)) 0); [split; [done|lia]|].
  destruct (Z.leb_spec (MaxActive (Pool cfg)) 0); [split; [done|lia]|].
  destruct (Z.leb_spec (IdleTimeout (Pool cfg)) 0); [split; [done|lia]|].
  split; [|done]. intros _. split_and!; try done; lia.
Qed.

(** X2.  When the loop over the backends reports an error, the error is
    about the first backend that is not valid and carries its index: every
    backend before it is valid, and of its defects the one reported is the
    first in the order host, port, weight. *)
Theorem validate_backends_first_error bs e :
  validate_backends 0 bs = Some e →
  ∃ (i : nat) b,
    bs !! i = Some b ∧ Forall backend_ok (take i bs) ∧
    ((Host b = "" ∧ e = MissingHost i) ∨
     (Host b ≠ "" ∧ BackendPort b ≤ 0 ∧ e = InvalidBackendPort i (BackendPort b)) ∨
     (Host b ≠ "" ∧ 0 < BackendPort b ∧ Weight b ≤ 0 ∧ e = InvalidWeight i (Weight b))).
Proof.
  assert (∀ k, validate_backends k bs = Some e →
    ∃ (i : nat) b,
      bs !! i = Some b ∧ Forall backend_ok (take i bs) ∧
      ((Host b = "" ∧ e = MissingHost (k + i)) ∨
       (Host b ≠ "" ∧ BackendPort b ≤ 0 ∧ e = InvalidBackendPort (k + i) (BackendPort b)) ∨
       (Host b ≠ "" ∧ 0 < BackendPort b ∧ Weight b ≤ 0 ∧ e = InvalidWeight (k + i) (Weight b))))
    as Hgen.
  { induction bs as [|b bs IH]; intros k; simpl; [done|].
    destruct (String.eqb_spec (Host b) "") as [He|Hne].
    { intros [= <-]. exists 0%nat, b. rewrite Nat.add_0_r. simpl. eauto 10. }
    destruct (Z.leb_spec (BackendPort b) 0).
    { intros [= <-]. exists 0%nat, b. rewrite Nat.add_0_r. simpl. eauto 10. }
    destruct (Z.leb_spec (Weight b) 0).
    { intros [= <-]. exists 0%nat, b. rewrite Nat.add_0_r. simpl. eauto 12. }
    intros (i & b' & Hi & Hall & Hcase)%IH.
    exists (S i), b'. replace (k + S i)%nat with (S k + i)%nat by lia.
    split_and!; [done| |done]. simpl. constructor; [|done]. by split_and!. }
  intros H. apply (Hgen 0%nat) in H. done.
Qed.

Lemma validate_backends_first_error_witness :
  ∃ (i : nat) b,
    bad_backends !! i = Some b ∧ Forall backend_ok (take i bad_backends) ∧
    ((Host b = "" ∧ InvalidBackendPort 1 0 = MissingHost i) ∨
     (Host b ≠ "" ∧ BackendPort b ≤ 0 ∧
      InvalidBackendPort 1 0 = InvalidBackendPort i (BackendPort b)) ∨
     (Host b ≠ "" ∧ 0 < BackendPort b ∧ Weight b ≤ 0 ∧
      InvalidBackendPort 1 0 = InvalidWeight i (Weight b))).
Proof.
  apply (validate_backends_first_error bad_backends (InvalidBackendPort 1 0)).
  reflexivity.
Defined.

End ConfigValidation.

(** ** The pool: release and reuse *)

Section PoolReuse.

Import Connpool.

Implicit Types (p : Pool) (addr : string) (c : Conn) (o : op).

Lemma Put_cached now c p :
  0 < active p ≤ max_int64 →
  bucket_len p (RemoteAddr c) < maxIdle p →
  Put now c p =
    (set_active (active p - 1)
       (set_idle (<[RemoteAddr c := bucket p (RemoteAddr c) ++ [{| conn := c; timeAdded := now |}]]>
                    (idle p)) p), [], None).
Proof.
  intros Hact Hroom. unfold Put.
  destruct (Z.leb_spec (active p) 0); [lia|].
  rewrite bucket_len_set_active. simpl.
  destruct (Z.geb_spec (bucket_len p (RemoteAddr c)) (maxIdle p)); [lia|].
  rewrite wrap64_small by (unfold min_int64, max_int64 in *; lia). done.
Qed.

(** X3.  A connection put back into a bucket with room is the one the next
    [Get] for its address returns, without a dial, as long as its age is
    at most [idleTimeout]; the pool is then as before the [Put], with the
    bucket of that address present. *)
Theorem Put_Get_round_trip now now' dial c p :
  0 < active p ≤ max_int64 →
  bucket_len p (RemoteAddr c) < maxIdle p →
  Since now' now ≤ idleTimeout p →
  Get now' dial (RemoteAddr c) (Put now c p).1.1 =
    (set_idle (<[RemoteAddr c := bucket p (RemoteAddr c)]> (idle p)) p, [], Ok c).
Proof.
  intros Hact Hroom Hfresh. rewrite Put_cached by done. unfold Get. simpl.
  rewrite lookup_insert_eq, last_snoc. simpl.
  destruct (Z.gtb_spec (Since now' now) (idleTimeout p)); [lia|].
  rewrite length_app. simpl.
  replace (length (bucket p (RemoteAddr c)) + 1 - 1)%nat
    with (length (bucket p (RemoteAddr c))) by lia.
  rewrite take_app_length, insert_insert_eq.
  replace (active p - 1 + 1) with (active p) by lia.
  rewrite wrap64_small by (unfold min_int64, max_int64 in *; lia).
  by destruct p.
Qed.

Lemma Put_Get_round_trip_witness :
  Get 2000 (dial_ok 2) (RemoteAddr conn_a) (Put 1000 conn_a pool_busy).1.1 =
    (set_idle (<[RemoteAddr conn_a := bucket pool_busy (RemoteAddr conn_a)]> (idle pool_busy))
              pool_busy, [], Ok conn_a).
Proof.
  apply (Put_Get_round_trip 1000 2000 (dial_ok 2) conn_a pool_busy).
  - split; [reflexivity|discriminate].
  - reflexivity.
  - discriminate.
Defined.

(** X4.  The same [Get] once the connection has been idle for longer than
    [idleTimeout]: the connection is closed, it is not the one returned
    from the bucket, and the answer is the one of [createConn]. *)
Theorem Put_Get_stale now now' dial c p :
  0 < active p ≤ max_int64 →
  bucket_len p (RemoteAddr c) < maxIdle p →
  idleTimeout p < Since now' now →
  let q := set_active (active p - 1)
             (set_idle (<[RemoteAddr c := bucket p (RemoteAddr c)]> (idle p)) p) in
  Get now' dial (RemoteAddr c) (Put now c p).1.1 =
    ((createConn dial (RemoteAddr c) q).1, [c], (createConn dial (RemoteAddr c) q).2).
Proof.
  intros Hact Hroom Hstale q. rewrite Put_cached by done. unfold Get. simpl.
  rewrite lookup_insert_eq, last_snoc. simpl.
  destruct (Z.gtb_spec (Since now' now) (idleTimeout p)); [|lia].
  rewrite length_app. simpl.
  replace (length (bucket p (RemoteAddr c)) + 1 - 1)%nat
    with (length (bucket p (RemoteAddr c))) by lia.
  rewrite take_app_length, insert_insert_eq.
  change (set_idle _ (set_active _ _)) with q.
  by destruct (createConn dial (RemoteAddr c) q).
Qed.

Lemma Put_Get_stale_witness :
  let q := set_active (active pool_busy - 1)
             (set_idle (<[RemoteAddr conn_a := bucket pool_busy (RemoteAddr conn_a)]>
                          (idle pool_busy)) pool_busy) in
  Get 70000000000 (dial_ok 2) (RemoteAddr conn_a) (Put 1000 conn_a pool_busy).1.1 =
    ((createConn (dial_ok 2) (RemoteAddr conn_a) q).1, [conn_a],
     (createConn (dial_ok 2) (RemoteAddr conn_a) q).2).
Proof.
  apply (Put_Get_stale 1000 70000000000 (dial_ok 2) conn_a pool_busy).
  - split; [reflexivity|discriminate].
  - reflexivity.
  - reflexivity.
Defined.

(** X5.  A [Get] that finds no idle connection for its address keeps
    [active] within [maxActive] and leaves the buckets alone; at the cap it
    fails without dialing, and a failed dial changes nothing. *)
Theorem Get_miss_respects_cap now dial addr p :
  bucket p addr = [] →
  min_int64 ≤ active p → active p ≤ maxActive p → maxActive p ≤ max_int64 →
  active (Get now dial addr p).1.1 ≤ maxActive p ∧
  idle (Get now dial addr p).1.1 = idle p ∧
  (Get now dial addr p).1.2 = [] ∧
  (active p = maxActive p → Get now dial addr p = (p, [], Err ErrMaxActive)) ∧
  (active p < maxActive p → dial addr = None → Get now dial addr p = (p, [], Err ErrDial)).
Proof.
  intros Hb Hmin Hle Hmax.
  assert (Get now dial addr p =
            ((createConn dial addr p).1, [], (createConn dial addr p).2)) as ->.
  { unfold Get, bucket in *. destruct (idle p !! addr) as [conns|]; simpl in *.
    - subst conns. simpl. by destruct (createConn _ _ _).
    - by destruct (createConn _ _ _). }
  simpl. split_and!.
  - by apply createConn_respects_cap.
  - apply createConn_frame.
  - done.
  - intros Heq. unfold createConn.
    destruct (Z.geb_spec (active p) (maxActive p)); [done|lia].
  - intros Hlt Hdial. unfold createConn. rewrite Hdial.
    destruct (Z.geb_spec (active p) (maxActive p)); [lia|done].
Qed.

Lemma Get_miss_respects_cap_witness :
  active (Get 0 (dial_ok 1) "a:1" pool_busy).1.1 ≤ maxActive pool_busy ∧
  idle (Get 0 (dial_ok 1) "a:1" pool_busy).1.1 = idle pool_busy ∧
  (Get 0 (dial_ok 1) "a:1" pool_busy).1.2 = [] ∧
  (active pool_busy = maxActive pool_busy →
     Get 0 (dial_ok 1) "a:1" pool_busy = (pool_busy, [], Err ErrMaxActive)) ∧
  (active pool_busy < maxActive pool_busy → dial_ok 1 "a:1" = None →
     Get 0 (dial_ok 1) "a:1" pool_busy = (pool_busy, [], Err ErrDial)).
Proof.
  apply (Get_miss_respects_cap 0 (dial_ok 1) "a:1" pool_busy).
  - reflexivity.
  - discriminate.
  - discriminate.
  - discriminate.
Defined.

(** *** [active] between zero and the number of calls *)

Lemma step_active p o :
  0 ≤ active p < max_int64 →
  0 ≤ active (step p o) ≤ active p + 1.
Proof.
  intros Hact.
  assert (wrap64 (active p + 1) = active p + 1) as Hinc
    by (apply wrap64_small; unfold min_int64, max_int64 in *; lia).
  destruct o as [now dial addr|now c| |now]; simpl.
  - unfold Get.
    destruct (idle p !! addr) as [conns|]; [destruct (last conns) as [ic|]|]; simpl.
    + destruct (_ >? _); simpl; [|rewrite Hinc; lia].
      unfold createConn. simpl. destruct (_ >=? _); simpl; [lia|].
      destruct (dial addr); simpl; [rewrite Hinc|]; lia.
    + unfold createConn. destruct (_ >=? _); simpl; [lia|].
      destruct (dial addr); simpl; [rewrite Hinc|]; lia.
    + unfold createConn. destruct (_ >=? _); simpl; [lia|].
      destruct (dial addr); simpl; [rewrite Hinc|]; lia.
  - unfold Put. destruct (Z.leb_spec (active p) 0); simpl; [lia|].
    rewrite bucket_len_set_active.
    assert (wrap64 (active p - 1) = active p - 1) as ->
      by (apply wrap64_small; unfold min_int64, max_int64 in *; lia).
    destruct (_ >=? _); simpl; lia.
  - rewrite Close_pool. simpl. lia.
  - lia.
Qed.

Lemma run_active ops p :
  0 ≤ active p → active p + Z.of_nat (length ops) ≤ max_int64 →
  0 ≤ active (run ops p) ≤ active p + Z.of_nat (length ops).
Proof.
  revert p. induction ops as [|o ops IH]; intros p Hpos Hlen; simpl in *; [lia|].
  pose proof (step_active p o ltac:(lia)) as Hstep.
  specialize (IH (step p o) ltac:(lia) ltac:(lia)).
  unfold run in *. simpl. lia.
Qed.

(** X6.  From a fresh pool, after [n] calls of any kind ([n] below [2^63]),
    [active] is at least zero and at most [n]: [Put] refuses to take it
    below zero, also when it is handed connections the pool never gave
    out, and every other call adds at most one. *)
Theorem active_between_zero_and_calls cfg p ops :
  New cfg = Ok p →
  Z.of_nat (length ops) ≤ max_int64 →
  0 ≤ active (run ops p) ≤ Z.of_nat (length ops).
Proof.
  intros (_ & _ & _ & Hact & _)%New_fields Hlen.
  pose proof (run_active ops p) as H. rewrite Hact in H. apply H; lia.
Qed.

Lemma active_between_zero_and_calls_witness :
  0 ≤ active (run over_cap_ops pool_one) ≤ Z.of_nat (length over_cap_ops).
Proof.
  apply (active_between_zero_and_calls cfg_one pool_one over_cap_ops).
  - reflexivity.
  - discriminate.
Defined.

End PoolReuse.

(** ** The pool: the periodic cleanup *)

Section PoolCleanup.

Import Connpool.

Implicit Types (p : Pool) (addr : string) (c : Conn) (o : op).

Lemma cleanup_bucket now p addr :
  idle (cleanup now p).1 !! addr =
  match idle p !! addr with
  | Some conns =>
      match List.filter (λ ic, negb (stale now p ic)) conns with
      | [] => None
      | valid => Some valid
      end
  | None => None
  end.
Proof.
  unfold cleanup. simpl. rewrite lookup_omap. by destruct (idle p !! addr).
Qed.

Lemma cleanup_closed_fold now p (m : gmap string (list idleConn)) c :
  c ∈ map_fold (λ _ conns closed, closed ++ (conn <$> List.filter (stale now p) conns)) [] m ↔
  ∃ addr conns ic, m !! addr = Some conns ∧ ic ∈ conns ∧ stale now p ic = true ∧ conn ic = c.
Proof.
  apply (map_fold_weak_ind (λ r m,
    c ∈ r ↔ ∃ addr conns ic, m !! addr = Some conns ∧ ic ∈ conns ∧
                              stale now p ic = true ∧ conn ic = c)); clear m.
  - split; [by intros ?%elem_of_nil|]. intros (? & ? & ? & ? & _). by simplify_map_eq.
  - intros i x m r Hi IH. rewrite elem_of_app, IH, list_elem_of_fmap. split.
    + intros [(a & cs & ic & Ha & Hic & Hst & <-)|(ic & -> & Hic)].
      * exists a, cs, ic. split_and!; try done.
        rewrite lookup_insert_ne; [done|]. intros ->. congruence.
      * apply list_elem_of_In, List.filter_In in Hic as [Hic Hst].
        exists i, x, ic. rewrite lookup_insert_eq. by rewrite list_elem_of_In.
    + intros (a & cs & ic & Ha & Hic & Hst & <-).
      destruct (decide (i = a)) as [->|Hne].
      * rewrite lookup_insert_eq in Ha. injection Ha as <-. right.
        exists ic. split; [done|]. apply list_elem_of_In, List.filter_In.
        by rewrite <-list_elem_of_In.
      * rewrite lookup_insert_ne in Ha by done. left. eauto 8.
Qed.

(** A bucket that [cleanup] leaves has no entry past [idleTimeout]. *)
Lemma cleanup_survivors now p addr conns :
  idle (cleanup now p).1 !! addr = Some conns →
  conns ≠ [] ∧ Forall (λ ic, Since now (timeAdded ic) ≤ idleTimeout p) conns ∧
  conns `sublist_of` bucket p addr.
Proof.
  rewrite cleanup_bucket. unfold bucket.
  destruct (idle p !! addr) as [old|]; [|done]. simpl.
  destruct (List.filter _ old) as [|ic valid] eqn:Hf; [done|]. intros [= <-].
  split_and!; [done| |].
  - apply Forall_forall. intros x Hx.
    rewrite <-Hf in Hx. apply list_elem_of_In, List.filter_In in Hx as [_ Hx].
    unfold stale in Hx. apply negb_true_iff in Hx.
    destruct (Z.gtb_spec (Since now (timeAdded x)) (idleTimeout p)); [done|lia].
  - rewrite <-Hf. clear. induction old as [|x old IH]; simpl; [done|].
    destruct (negb _); [by constructor|by apply sublist_cons].
Qed.

(** The connections [cleanup] closes. *)
Lemma cleanup_closed now p c :
  c ∈ (cleanup now p).2 ↔
  ∃ addr ic, ic ∈ bucket p addr ∧ idleTimeout p < Since now (timeAdded ic) ∧ conn ic = c.
Proof.
  unfold cleanup. simpl. rewrite cleanup_closed_fold. unfold bucket, stale. split.
  - intros (addr & conns & ic & Ha & Hic & Hst & <-). exists addr, ic. rewrite Ha. simpl.
    split_and!; [done| |done].
    destruct (Z.gtb_spec (Since now (timeAdded ic)) (idleTimeout p)); [lia|done].
  - intros (addr & ic & Hic & Hst & <-).
    destruct (idle p !! addr) as [conns|] eqn:Ha; simpl in *; [|by apply elem_of_nil in Hic].
    exists addr, conns, ic. split_and!; try done.
    destruct (Z.gtb_spec (Since now (timeAdded ic)) (idleTimeout p)); [done|lia].
Qed.

(** X7.  One tick of [cleanup]: the configuration and [active] stay; a
    bucket that is left has an entry, none of its entries is past
    [idleTimeout], and they are the survivors of the old bucket in their
    old order; an entry that is not past [idleTimeout] survives; and the
    connections closed are those of the entries past [idleTimeout]. *)
Theorem cleanup_evicts_stale now p :
  (maxIdle (cleanup now p).1 = maxIdle p ∧ maxActive (cleanup now p).1 = maxActive p ∧
   idleTimeout (cleanup now p).1 = idleTimeout p ∧ active (cleanup now p).1 = active p) ∧
  (∀ addr conns, idle (cleanup now p).1 !! addr = Some conns →
     conns ≠ [] ∧ Forall (λ ic, Since now (timeAdded ic) ≤ idleTimeout p) conns ∧
     conns `sublist_of` bucket p addr) ∧
  (∀ addr ic, ic ∈ bucket p addr → Since now (timeAdded ic) ≤ idleTimeout p →
     ic ∈ bucket (cleanup now p).1 addr) ∧
  (∀ c, c ∈ (cleanup now p).2 ↔
     ∃ addr ic, ic ∈ bucket p addr ∧ idleTimeout p < Since now (timeAdded ic) ∧ conn ic = c).
Proof.
  split_and!; try done.
  - apply cleanup_survivors.
  - intros addr ic Hin Hfresh. unfold bucket in *. rewrite cleanup_bucket.
    destruct (idle p !! addr) as [old|]; simpl in *; [|by apply elem_of_nil in Hin].
    assert (ic ∈ List.filter (λ ic, negb (stale now p ic)) old) as Hsurv.
    { apply list_elem_of_In, List.filter_In. rewrite <-list_elem_of_In.
      split; [done|]. unfold stale.
      destruct (Z.gtb_spec (Since now (timeAdded ic)) (idleTimeout p)); [lia|done]. }
    destruct (List.filter _ old); [by apply elem_of_nil in Hsurv|done].
  - apply cleanup_closed.
Qed.

Lemma filter_filter_id {A} (f : A → bool) (l : list A) :
  List.filter f (List.filter f l) = List.filter f l.
Proof.
  induction l as [|x l IH]; simpl; [done|].
  destruct (f x) eqn:Hx; simpl; [by rewrite Hx, IH|done].
Qed.

(** X8.  A second tick at the same instant finds nothing to do: the pool
    stays as the first tick left it and no connection is closed. *)
Theorem cleanup_idempotent now p :
  cleanup now (cleanup now p).1 = ((cleanup now p).1, []).
Proof.
  apply injective_projections.
  - destruct p as [mi ma it a m]. unfold cleanup, set_idle. simpl. f_equal.
    change (stale now {| maxIdle := mi; maxActive := ma; idleTimeout := it; active := a;
                         idle := omap _ m |})
      with (stale now {| maxIdle := mi; maxActive := ma; idleTimeout := it; active := a;
                         idle := m |}).
    set (f := λ ic, negb (stale now _ ic)).
    apply map_eq. intros addr. rewrite !lookup_omap.
    destruct (m !! addr) as [old|]; [|done]. simpl.
    destruct (List.filter f old) as [|ic valid] eqn:Hf; [done|]. simpl.
    change (if f ic then ic :: List.filter f valid else List.filter f valid)
      with (List.filter f (ic :: valid)).
    by rewrite <-Hf, filter_filter_id, Hf.
  - simpl. destruct ((cleanup now (cleanup now p).1).2) as [|c l] eqn:Hcl; [done|].
    assert (c ∈ (cleanup now (cleanup now p).1).2) as Hc by (rewrite Hcl; left).
    apply cleanup_closed in Hc as (addr & ic & Hic & Hst & _).
    unfold bucket in Hic.
    destruct (idle (cleanup now p).1 !! addr) as [conns|] eqn:Ha; simpl in Hic;
      [|by apply elem_of_nil in Hic].
    apply cleanup_survivors in Ha as (_ & Hall & _).
    rewrite Forall_forall in Hall. specialize (Hall ic Hic). simpl in Hst. lia.
Qed.

End PoolCleanup.

(** ** The ring: lookups and membership *)

Section RingLookup.

Import Hashing.

Implicit Types (c : ConsistentHasher) (node key : string) (v i j n : Z).

Lemma StronglySorted_filter_Z (P : Z → Prop) `{!∀ x, Decision (P x)} (l : list Z) :
  StronglySorted Z.le l → StronglySorted Z.le (filter P l).
Proof.
  induction 1 as [|x l Hs IH Hall]; [constructor|].
  rewrite filter_cons. case_decide; [|done].
  constructor; [done|]. rewrite Forall_forall in *.
  intros y [_ Hy]%list_elem_of_filter. by apply Hall.
Qed.

Lemma Remove_sorted node c : Sorted Z.le (nodes c) → Sorted Z.le (nodes (Remove node c)).
Proof.
  intros Hs. apply StronglySorted_Sorted. unfold Remove. simpl.
  apply StronglySorted_filter_Z. apply Sorted_StronglySorted; [apply _|done].
Qed.

Lemma ring_run_sorted ops : Sorted Z.le (nodes (ring_run ops)).
Proof.
  unfold ring_run. induction ops as [|o ops IH] using rev_ind; [constructor|].
  rewrite foldl_app. simpl. destruct o; simpl.
  - apply Add_sorted.
  - by apply Remove_sorted.
Qed.

(** [Get] on a sorted ring with an entry: the entry it reads is the first
    one at or after the key's hash, or the ring's least entry when the
    hash is past them all. *)
Lemma Get_successor key c :
  Sorted Z.le (nodes c) → nodes c ≠ [] →
  ∃ v, v ∈ nodes c ∧
       Get key c = Some (default "" (hash c !! v)) ∧
       ((hashKey key ≤ v ∧ ∀ u, u ∈ nodes c → hashKey key ≤ u → v ≤ u) ∨
        ((∀ u, u ∈ nodes c → u < hashKey key) ∧ ∀ u, u ∈ nodes c → v ≤ u)).
Proof.
  intros Hsorted Hne. apply Sorted_StronglySorted in Hsorted; [|apply _].
  unfold Get. set (n := Z.of_nat (length (nodes c))). set (h := hashKey key).
  assert (0 < n) as Hn by (unfold n; destruct (nodes c); [done|simpl; lia]).
  destruct (Z.eqb_spec n 0) as [|_]; [lia|].
  set (f := λ i, nodes c !!! Z.to_nat i >=? h).
  assert (Hf : ∀ k, 0 ≤ k < n → ∃ x, nodes c !! Z.to_nat k = Some x ∧ f k = (x >=? h)).
  { intros k Hk. destruct (lookup_lt_is_Some_2 (nodes c) (Z.to_nat k)) as [x Hx]; [lia|].
    exists x. split; [done|]. unfold f. by rewrite (list_lookup_total_correct _ _ _ Hx). }
  assert (∀ a b, 0 ≤ a → a ≤ b → b < n → f a = true → f b = true) as Hmono.
  { intros a b Ha Hab Hb. destruct (Hf a) as (x & Hx & ->); [lia|].
    destruct (Hf b) as (y & Hy & ->); [lia|].
    pose proof (StronglySorted_lookup_le _ (Z.to_nat a) (Z.to_nat b) x y Hsorted
                  ltac:(lia) Hx Hy).
    intros ?%Z.geb_le. apply Z.geb_le. lia. }
  destruct (search_loop_spec (Z.to_nat n) f 0 n Hmono ltac:(lia) ltac:(lia))
    as (Hr & Hlow & Hhigh).
  fold (Search n f) in *. set (r := Search n f) in *.
  assert (Hbelow : ∀ k x, 0 ≤ k < r → nodes c !! Z.to_nat k = Some x → x < h).
  { intros k x Hk Hx. specialize (Hlow k Hk). destruct (Hf k) as (x' & Hx' & Hfk); [lia|].
    simplify_eq. rewrite Hfk in Hlow.
    destruct (Z.geb_spec x h); [done|lia]. }
  destruct (Z.eqb_spec r n) as [Hrn|Hrn].
  - (* past every entry: index 0 *)
    destruct (Hf 0) as (x & Hx & _); [lia|]. simpl in Hx.
    destruct (Z.ltb_spec 0 n); [|lia].
    exists x. simpl. rewrite (list_lookup_total_correct _ _ _ Hx).
    split_and!; [by eapply list_elem_of_lookup_2|done|]. right. split.
    + intros u [k Hk]%list_elem_of_lookup.
      pose proof (lookup_lt_Some _ _ _ Hk).
      apply (Hbelow (Z.of_nat k)); [lia|by rewrite Nat2Z.id].
    + intros u [k Hk]%list_elem_of_lookup.
      apply (StronglySorted_lookup_le _ 0%nat k x u Hsorted); [lia|done..].
  - destruct (Z.leb_spec 0 r), (Z.ltb_spec r n); try lia. simpl.
    destruct (Hf r) as (x & Hx & Hfx); [lia|].
    rewrite Hhigh in Hfx by lia. symmetry in Hfx. apply Z.geb_le in Hfx.
    exists x. rewrite (list_lookup_total_correct _ _ _ Hx).
    split_and!; [by eapply list_elem_of_lookup_2|done|]. left. split; [done|].
    intros u [k Hk]%list_elem_of_lookup Hu.
    destruct (decide (Z.of_nat k < r)) as [Hlt|Hge].
    + pose proof (Hbelow (Z.of_nat k) u ltac:(lia)) as Hb. rewrite Nat2Z.id in Hb.
      specialize (Hb Hk). lia.
    + apply (StronglySorted_lookup_le _ (Z.to_nat r) k x u Hsorted); [lia|done..].
Qed.

Lemma Add_length node w c :
  length (nodes (Add node w c)) = (length (nodes c) + length (replicas w))%nat.
Proof.
  unfold Add. simpl.
  destruct (add_vnodes_spec node
    {| hash := hash c; nodes := nodes c; weights := <[node:=w]> (weights c) |}
    (replicas w)) as (_ & -> & _). simpl.
  by rewrite merge_sort_Permutation, length_app, length_fmap.
Qed.

Lemma build_nodes_nonempty adds :
  Exists (λ a, 0 < a.2 ∧ 100 * a.2 ≤ max_int64) adds → nodes (build adds) ≠ [].
Proof.
  induction 1 as [[h w] adds [Hpos Hmax]|[h w] adds _ IH]; simpl.
  - by apply Add_nodes_nonempty.
  - intros Hnil. apply IH. apply length_zero_iff_nil.
    change (nodes (Add h w (build adds)) = []) in Hnil.
    pose proof (Add_length h w (build adds)) as Hl. rewrite Hnil in Hl.
    simpl in Hl. lia.
Qed.

(** X9.  [Get] never indexes [nodes] out of range, on any ring value; on a
    ring without entries it returns the empty string. *)
Theorem Get_in_range key c :
  (∃ h, Get key c = Some h) ∧ (nodes c = [] → Get key c = Some "").
Proof.
  split.
  - destruct (decide (nodes c = [])) as [Hnil|Hne].
    + unfold Get. rewrite Hnil. simpl. eauto.
    + destruct (Get_index key c Hne) as (v & _ & ->). eauto.
  - intros Hnil. unfold Get. by rewrite Hnil.
Qed.

(** X10.  After any sequence of [Add] and [Remove] from the empty ring,
    [nodes] is sorted in ascending order. *)
Theorem nodes_always_sorted ops : Sorted Z.le (nodes (ring_run ops)).
Proof. apply ring_run_sorted. Qed.

(** X11.  On a ring reached by [Add] and [Remove] that has an entry, [Get]
    reads the first entry clockwise from the key's hash: the least entry
    at or after the hash, or the least entry of all when the hash is past
    every entry; it returns the host [hash] maps that entry to, the empty
    string when there is none. *)
Theorem Get_clockwise ops key :
  nodes (ring_run ops) ≠ [] →
  ∃ v, v ∈ nodes (ring_run ops) ∧
       Get key (ring_run ops) = Some (default "" (hash (ring_run ops) !! v)) ∧
       ((hashKey key ≤ v ∧ ∀ u, u ∈ nodes (ring_run ops) → hashKey key ≤ u → v ≤ u) ∨
        ((∀ u, u ∈ nodes (ring_run ops) → u < hashKey key) ∧
         ∀ u, u ∈ nodes (ring_run ops) → v ≤ u)).
Proof. intros Hne. apply Get_successor; [apply ring_run_sorted|done]. Qed.

Lemma Get_clockwise_witness :
  ∃ v, v ∈ nodes (ring_run [RingAdd "a" 1]) ∧
       Get "k" (ring_run [RingAdd "a" 1]) =
         Some (default "" (hash (ring_run [RingAdd "a" 1]) !! v)) ∧
       ((hashKey "k" ≤ v ∧
         ∀ u, u ∈ nodes (ring_run [RingAdd "a" 1]) → hashKey "k" ≤ u → v ≤ u) ∨
        ((∀ u, u ∈ nodes (ring_run [RingAdd "a" 1]) → u < hashKey "k") ∧
         ∀ u, u ∈ nodes (ring_run [RingAdd "a" 1]) → v ≤ u)).
Proof. apply (Get_clockwise [RingAdd "a" 1] "k"). vm_compute. discriminate. Defined.

(** X12.  [Add node w] appends [100 * w] entries to [nodes] when that
    product fits an [int], none when [w] is zero or negative. *)
Theorem Add_entry_count node w c :
  min_int64 ≤ 100 * w ≤ max_int64 →
  Z.of_nat (length (nodes (Add node w c))) =
    Z.of_nat (length (nodes c)) + Z.max 0 (100 * w).
Proof.
  intros Hw. rewrite Add_length. unfold replicas, replicationFactor.
  rewrite wrap64_small by done. rewrite length_seqZ. lia.
Qed.

Lemma Add_entry_count_witness :
  Z.of_nat (length (nodes (Add "a" 3 ring_a))) =
    Z.of_nat (length (nodes ring_a)) + Z.max 0 (100 * 3).
Proof. apply (Add_entry_count "a" 3 ring_a). split; discriminate. Defined.

(** X13.  Right after [Add node w], the label of each virtual node of [node]
    (the host name followed by the encoding of [i], for [i] from 0 below
    [100 * w]) is a key that [Get] sends to [node]. *)
Theorem Add_Get_round_trip node w c i :
  100 * w ≤ max_int64 → 0 ≤ i < 100 * w →
  Get (node +:+ string_of_rune i) (Add node w c) = Some node.
Proof.
  intros Hmax Hi. destruct (Add_spec node w c) as (_ & Hn & Hh).
  assert (vnode node i ∈ vnode node <$> replicas w) as Hv.
  { apply list_elem_of_fmap. exists i. split; [done|].
    unfold replicas, replicationFactor.
    rewrite wrap64_small by (unfold min_int64, max_int64 in *; lia).
    apply elem_of_seqZ. lia. }
  rewrite Get_at_node.
  - fold (vnode node i). rewrite Hh. by rewrite decide_True.
  - apply Add_sorted.
  - apply Hn. by right.
Qed.

Lemma Add_Get_round_trip_witness :
  Get ("b" +:+ string_of_rune 7) (Add "b" 1 ring_a) = Some "b".
Proof.
  apply (Add_Get_round_trip "b" 1 ring_a 7).
  - discriminate.
  - split; [discriminate|reflexivity].
Defined.

(** X14.  A ring built by [Add] alone, every host with a name and one of
    them with a positive weight (below [2^63 / 100]), sends every key to a
    member with a name. *)
Theorem Get_covers_ring_of_adds adds key :
  Forall (λ a, a.1 ≠ "") adds →
  Exists (λ a, 0 < a.2 ∧ 100 * a.2 ≤ max_int64) adds →
  ∃ h, Get key (build adds) = Some h ∧ h ∈ members (build adds) ∧ h ≠ "".
Proof.
  intros Hnamed Hpos. apply Get_covers_after_adds; [done|].
  by apply build_nodes_nonempty.
Qed.

Lemma Get_covers_ring_of_adds_witness :
  ∃ h, Get "k" (build [("b", 0); ("a", 1)]) = Some h ∧
       h ∈ members (build [("b", 0); ("a", 1)]) ∧ h ≠ "".
Proof.
  apply (Get_covers_ring_of_adds [("b", 0); ("a", 1)] "k").
  - repeat constructor; discriminate.
  - right. left. split; [reflexivity|discriminate].
Defined.

(** X15.  [Remove] of a host the ring has no weight for leaves a ring built
    by [Add] alone (of named hosts) exactly as it is. *)
Theorem Remove_unknown_host adds node :
  Forall (λ a, a.1 ≠ "") adds → node ∉ members (build adds) →
  Remove node (build adds) = build adds.
Proof.
  intros Hnamed Hnot. apply Remove_unknown.
  - by apply not_elem_of_dom.
  - intros v Hv. destruct (build_ok adds Hnamed v Hv) as (h & -> & Hh & _).
    simpl. by intros ->.
Qed.

Lemma Remove_unknown_host_witness :
  Remove "c" (build [("b", 2); ("a", 1)]) = build [("b", 2); ("a", 1)].
Proof.
  apply (Remove_unknown_host [("b", 2); ("a", 1)] "c").
  - repeat constructor; discriminate.
  - apply not_elem_of_dom. vm_compute. reflexivity.
Defined.

(** X16.  [Remove node] after [Add node w] gives back the map [hash] and the
    weights the ring had, when the host is new to the ring and none of its
    virtual nodes' hashes was in [hash]. *)
Theorem Add_Remove_restores_maps node w c :
  weights c !! node = None →
  (∀ i, i ∈ replicas w → hash c !! vnode node i = None) →
  hash (Remove node (Add node w c)) = hash c ∧
  weights (Remove node (Add node w c)) = weights c.
Proof.
  intros Hnew Hfree. destruct (Add_spec node w c) as (Hw & _ & Hh). split.
  - apply map_eq. intros v. rewrite Remove_hash, Hw, lookup_insert_eq. simpl.
    case_decide as Hin.
    + apply list_elem_of_fmap in Hin as (i & -> & Hi). by rewrite Hfree.
    + rewrite Hh. by rewrite decide_False.
  - unfold Remove. cbn [weights]. rewrite Hw. by rewrite delete_insert_id.
Qed.

Lemma Add_Remove_restores_maps_witness :
  hash (Remove "a" (Add "a" 1 New)) = hash New ∧
  weights (Remove "a" (Add "a" 1 New)) = weights New.
Proof.
  apply (Add_Remove_restores_maps "a" 1 New).
  - reflexivity.
  - intros i _. reflexivity.
Defined.

End RingLookup.

(** ** The detector: the samples of a host *)

Section SampleBuffer.

Import Health.

Implicit Types (c : Checker) (host : string) (o : record_op) (h : history).

(** The history after the samples [ds], oldest first. *)
Local Abbreviation after ds := (foldl (λ h d, record_sample d h) new_history ds).

Lemma record_sample_fields d h :
  times (record_sample d h) = <[Z.to_nat (index h) := d]> (times h) ∧
  index (record_sample d h) = Z.rem (wrap64 (index h + 1)) sampleSize ∧
  count (record_sample d h) =
    (if count h <? sampleSize then wrap64 (count h + 1) else count h).
Proof. unfold record_sample. apply updateStats_fields. Qed.

(** The circular buffer after any number of samples. *)
Lemma buffer_inv (ds : list Z) :
  length (times (after ds)) = 1000%nat ∧
  index (after ds) = Z.of_nat (length ds) mod 1000 ∧
  count (after ds) = Z.min (Z.of_nat (length ds)) 1000 ∧
  (∀ j : nat, (j < length ds)%nat → (length ds - j ≤ 1000)%nat →
     times (after ds) !! (j mod 1000)%nat = ds !! j) ∧
  (∀ i : nat, (length ds ≤ i < 1000)%nat → times (after ds) !! i = Some 0).
Proof.
  induction ds as [|d ds IH] using rev_ind.
  - split_and!.
    + by vm_compute.
    + done.
    + done.
    + intros j Hj. simpl in Hj. lia.
    + intros i Hi. cbn [foldl]. unfold new_history. cbn [times].
      apply lookup_replicate_2. unfold sampleSize. simpl in Hi. lia.
  - destruct IH as (Hlen & Hidx & Hcnt & Hcontent & Hzero).
    rewrite foldl_app. cbn [foldl].
    destruct (record_sample_fields d (after ds)) as (-> & -> & ->).
    rewrite length_app. simpl. unfold sampleSize.
    assert (0 ≤ Z.of_nat (length ds) mod 1000 < 1000) as Hmod by (apply Z.mod_pos_bound; lia).
    assert (Z.to_nat (index (after ds)) = (length ds mod 1000)%nat) as Hk.
    { rewrite Hidx. rewrite <-(Nat2Z.id (length ds mod 1000)). f_equal.
      by rewrite Nat2Z.inj_mod. }
    assert ((length ds mod 1000 < 1000)%nat) as Hklt by (apply Nat.mod_upper_bound; lia).
    split_and!.
    + by rewrite length_insert.
    + rewrite Hidx. rewrite wrap64_small by (unfold min_int64, max_int64; lia).
      rewrite Z.rem_mod_nonneg by lia.
      rewrite Nat2Z.inj_add. simpl (Z.of_nat 1).
      by rewrite Zplus_mod_idemp_l.
    + rewrite Hcnt. destruct (Z.ltb_spec (Z.min (Z.of_nat (length ds)) 1000) 1000).
      * rewrite wrap64_small by (unfold min_int64, max_int64; lia). lia.
      * lia.
    + intros j Hj Hwin. rewrite Hk.
      destruct (decide (j = length ds)) as [->|Hne].
      * rewrite list_lookup_insert_eq by lia.
        by rewrite lookup_app_r, Nat.sub_diag by lia.
      * assert (j mod 1000 ≠ length ds mod 1000)%nat as Hdiff.
        { intros Heq.
          assert ((length ds - j) mod 1000 = 0)%nat as Hz.
          { apply Nat.Div0.mod_divides.
            rewrite (Nat.div_mod_eq (length ds) 1000), (Nat.div_mod_eq j 1000), Heq.
            exists (length ds / 1000 - j / 1000)%nat.
            assert (j / 1000 ≤ length ds / 1000)%nat by (apply Nat.Div0.div_le_mono; lia).
            lia. }
          rewrite Nat.mod_small in Hz by lia. lia. }
        rewrite list_lookup_insert_ne by done.
        rewrite lookup_app_l by lia. apply Hcontent; lia.
    + intros i Hi. rewrite Hk.
      rewrite list_lookup_insert_ne.
      * apply Hzero. lia.
      * rewrite Nat.mod_small by lia. lia.
Qed.

Lemma sum_insert (l : list Z) (k : nat) old d :
  l !! k = Some old →
  foldr Z.add 0 (<[k := d]> l) = foldr Z.add 0 l - old + d.
Proof.
  revert k. induction l as [|x l IH]; intros [|k] Hk; simpl in *; simplify_eq.
  - lia.
  - rewrite (IH k Hk). lia.
Qed.

Lemma sum_app (l1 l2 : list Z) :
  foldr Z.add 0 (l1 ++ l2) = foldr Z.add 0 l1 + foldr Z.add 0 l2.
Proof. induction l1 as [|x l1 IH]; simpl; lia. Qed.

(** The slots of the buffer add up to the sum of the last [sampleSize]
    samples. *)
Lemma sum_times (ds : list Z) :
  foldr Z.add 0 (times (after ds)) = foldr Z.add 0 (drop (length ds - 1000) ds).
Proof.
  induction ds as [|d ds IH] using rev_ind.
  - cbn [foldl]. unfold new_history. cbn [times]. simpl drop.
    generalize (Z.to_nat sampleSize). intros n.
    induction n as [|n IHn]; [done|]. cbn [replicate foldr]. by rewrite IHn.
  - destruct (buffer_inv ds) as (Hlen & Hidx & _ & Hcontent & Hzero).
    rewrite foldl_app. cbn [foldl].
    destruct (record_sample_fields d (after ds)) as (-> & _ & _).
    assert (Z.to_nat (index (after ds)) = (length ds mod 1000)%nat) as ->.
    { rewrite Hidx. rewrite <-(Nat2Z.id (length ds mod 1000)). f_equal.
      by rewrite Nat2Z.inj_mod. }
    rewrite length_app. simpl length.
    destruct (decide (length ds < 1000)%nat) as [Hlt|Hge].
    + rewrite Nat.mod_small by lia.
      rewrite (sum_insert _ _ 0) by (apply Hzero; lia).
      rewrite IH.
      replace (length ds - 1000)%nat with 0%nat by lia.
      replace (length ds + 1 - 1000)%nat with 0%nat by lia.
      rewrite !drop_0, sum_app. simpl. lia.
    + destruct (lookup_lt_is_Some_2 ds (length ds - 1000)) as [old Hold]; [lia|].
      assert ((length ds - 1000) mod 1000 = length ds mod 1000)%nat as Hm.
      { replace (length ds) with ((length ds - 1000) + 1 * 1000)%nat at 2 by lia.
        by rewrite Nat.Div0.mod_add. }
      rewrite (sum_insert _ _ old)
        by (rewrite <-Hm, Hcontent; [done|lia|lia]).
      rewrite IH, (drop_S _ _ _ Hold).
      replace (length ds + 1 - 1000)%nat with (S (length ds - 1000)) by lia.
      rewrite drop_app_le by lia. rewrite sum_app. simpl. lia.
Qed.

Lemma times_bounded (ds : list Z) :
  Forall (λ d, - sample_bound ≤ d ≤ sample_bound) ds →
  Forall (λ d, - sample_bound ≤ d ≤ sample_bound) (times (after ds)).
Proof.
  induction ds as [|d ds IH] using rev_ind; intros Hall.
  - cbn [foldl]. unfold new_history. cbn [times].
    apply Forall_replicate. unfold sample_bound. lia.
  - apply Forall_app in Hall as [Hall Hd]. apply Forall_inv in Hd.
    rewrite foldl_app. cbn [foldl].
    destruct (record_sample_fields d (after ds)) as (-> & _ & _).
    apply Forall_insert; [by apply IH|done].
Qed.

Lemma record_sample_mean d h :
  count (record_sample d h) ≠ 0 →
  mean (record_sample d h) =
    wrap64 (Z.quot (foldl (λ s x, wrap64 (s + x)) 0 (live (record_sample d h)))
                   (count (record_sample d h))).
Proof.
  unfold record_sample. set (h1 := {| times := _ |}).
  destruct (updateStats_fields h1) as (Ht & _ & Hc). intros Hne.
  rewrite updateStats_mean by congruence.
  unfold live. by rewrite Ht, Hc.
Qed.

Lemma live_full h :
  count h = Z.of_nat (length (times h)) → live h = times h.
Proof.
  intros Hc. unfold live. apply (live_prefix (times h) []); [by rewrite app_nil_r|done].
Qed.

Lemma mean_recent (ds : list Z) :
  ds ≠ [] →
  Forall (λ d, - sample_bound ≤ d ≤ sample_bound) ds →
  mean (after ds) =
    Z.quot (foldr Z.add 0 (drop (length ds - 1000) ds))
           (Z.min (Z.of_nat (length ds)) 1000).
Proof.
  intros Hne Hall.
  destruct (decide (length ds ≤ 1000)%nat) as [Hle|Hgt].
  - rewrite mean_after_samples; [|done|unfold sampleSize; lia|done].
    replace (length ds - 1000)%nat with 0%nat by lia. rewrite drop_0.
    f_equal. lia.
  - destruct (buffer_inv ds) as (Hlen & _ & Hcnt & _ & _).
    pose proof (sum_times ds) as Hsum. pose proof (times_bounded ds Hall) as Hb.
    destruct ds as [|d ds _] using rev_ind; [done|].
    rewrite foldl_app in *. cbn [foldl] in *.
    rewrite record_sample_mean by (rewrite Hcnt; lia).
    rewrite live_full by (rewrite Hcnt, Hlen; lia).
    destruct (sum_no_wrap _ ltac:(rewrite Hlen; unfold sampleSize; lia) Hb) as [-> Hrange].
    rewrite <-Hsum, Hcnt. rewrite Hlen in Hrange.
    replace (Z.min (Z.of_nat (length (ds ++ [d]))) 1000) with 1000 by lia.
    apply wrap64_small.
    unfold sample_bound, min_int64, max_int64 in *.
    set (S := foldr Z.add 0 _) in *.
    assert (Z.abs (S ÷ 1000) ≤ Z.abs S).
    { rewrite <-Z.quot_abs by lia. rewrite (Z.abs_eq 1000) by lia.
      rewrite Z.quot_div_nonneg by lia. apply Z.div_le_upper_bound; lia. }
    lia.
Qed.

Lemma history_of_records interval t ops host h :
  histories (foldl record_step (New interval t) ops) !! host = Some h →
  h = after (durations_for host ops).
Proof.
  intros Hh. pose proof (records_history host ops (New interval t)) as H.
  rewrite Hh in H. simpl in H. by rewrite lookup_empty in H.
Qed.

Lemma records_known host ops c :
  is_Some (histories (foldl record_step c ops) !! host) ↔
  is_Some (histories c !! host) ∨ existsb (is_success_for host) ops = true.
Proof.
  revert c. induction ops as [|o ops IH]; intros c; cbn [foldl existsb].
  - split; [by left|]. by intros [?|?].
  - rewrite IH, orb_true_iff.
    destruct o as [now h d|now h]; cbn [record_step is_success_for].
    + destruct (decide (h = host)) as [->|Hne].
      * rewrite recordSuccess_history, bool_decide_eq_true_2 by done.
        split; [intros _; right; by left|]. intros _. left. eauto.
      * rewrite recordSuccess_histories_ne by done.
        rewrite bool_decide_eq_false_2 by done. intuition congruence.
    + rewrite recordFailure_histories. intuition congruence.
Qed.

Lemma history_known_has_sample interval t ops host :
  is_Some (histories (foldl record_step (New interval t) ops) !! host) →
  durations_for host ops ≠ [].
Proof.
  rewrite records_known. simpl. rewrite lookup_empty.
  intros [[? ?]|Hex]; [done|].
  apply existsb_exists in Hex as (o & Ho & Hs).
  destruct o as [now h d|now h]; simpl in Hs; [|done].
  apply bool_decide_eq_true in Hs as ->.
  intros Hnil.
  assert (d ∈ durations_for host ops) as Hd.
  { unfold durations_for. apply list_elem_of_omap.
    exists (RecSuccess now host d). split; [by apply list_elem_of_In|].
    by rewrite decide_True. }
  rewrite Hnil in Hd. by apply elem_of_nil in Hd.
Qed.

(** X17.  A host has a history exactly when some successful check of it was
    recorded; failed checks never create one, and a history is never
    dropped. *)
Theorem history_iff_success interval t ops host :
  is_Some (histories (foldl record_step (New interval t) ops) !! host) ↔
  existsb (is_success_for host) ops = true.
Proof.
  rewrite records_known. simpl. rewrite lookup_empty. split; [|by right].
  intros [[? ?]|?]; done.
Qed.

(** X18.  The sample buffer of a host is circular.  With [ds] the durations
    of its successful checks, oldest first, and [n] their number: the
    buffer keeps [sampleSize] slots, [index] is [n mod sampleSize], [count]
    is [min n sampleSize], each of the last [sampleSize] samples sits in
    the slot of its number modulo [sampleSize], and a slot never written
    holds zero. *)
Theorem sample_buffer_is_circular interval t ops host h :
  histories (foldl record_step (New interval t) ops) !! host = Some h →
  length (times h) = 1000%nat ∧
  index h = Z.of_nat (length (durations_for host ops)) mod sampleSize ∧
  count h = Z.min (Z.of_nat (length (durations_for host ops))) sampleSize ∧
  (∀ j : nat, (j < length (durations_for host ops))%nat →
     (length (durations_for host ops) - j ≤ 1000)%nat →
     times h !! (j mod 1000)%nat = durations_for host ops !! j) ∧
  (∀ i : nat, (length (durations_for host ops) ≤ i < 1000)%nat → times h !! i = Some 0).
Proof. intros ->%history_of_records. apply buffer_inv. Qed.

Lemma sample_buffer_is_circular_witness :
  length (times (after [350000; 250000])) = 1000%nat ∧
  index (after [350000; 250000]) =
    Z.of_nat (length (durations_for "10.0.0.1:80" two_successes)) mod sampleSize ∧
  count (after [350000; 250000]) =
    Z.min (Z.of_nat (length (durations_for "10.0.0.1:80" two_successes))) sampleSize ∧
  (∀ j : nat, (j < length (durations_for "10.0.0.1:80" two_successes))%nat →
     (length (durations_for "10.0.0.1:80" two_successes) - j ≤ 1000)%nat →
     times (after [350000; 250000]) !! (j mod 1000)%nat =
       durations_for "10.0.0.1:80" two_successes !! j) ∧
  (∀ i : nat, (length (durations_for "10.0.0.1:80" two_successes) ≤ i < 1000)%nat →
     times (after [350000; 250000]) !! i = Some 0).
Proof.
  apply (sample_buffer_is_circular 1000000000 8%float two_successes "10.0.0.1:80"
           (after [350000; 250000])).
  vm_compute. reflexivity.
Defined.

(** X19.  The cached mean of a host, its samples each within [sample_bound]
    of zero: the sum of its most recent [min n sampleSize] samples divided
    by their number, the quotient truncated towards zero. *)
Theorem mean_of_recent_samples interval t ops host h :
  histories (foldl record_step (New interval t) ops) !! host = Some h →
  Forall (λ d, - sample_bound ≤ d ≤ sample_bound) (durations_for host ops) →
  mean h =
    Z.quot (foldr Z.add 0 (drop (length (durations_for host ops) - 1000)
                                (durations_for host ops)))
           (Z.min (Z.of_nat (length (durations_for host ops))) sampleSize).
Proof.
  intros Hh Hall. pose proof Hh as ->%history_of_records.
  apply mean_recent; [|done]. intros Hnil.
  assert (is_Some (histories (foldl record_step (New interval t) ops) !! host)) as Hs by eauto.
  apply history_known_has_sample in Hs. by rewrite Hnil in Hs.
Qed.

Lemma mean_of_recent_samples_witness :
  mean (after [350000; 250000]) =
    Z.quot (foldr Z.add 0 (drop (length (durations_for "10.0.0.1:80" two_successes) - 1000)
                                (durations_for "10.0.0.1:80" two_successes)))
           (Z.min (Z.of_nat (length (durations_for "10.0.0.1:80" two_successes))) sampleSize).
Proof.
  apply (mean_of_recent_samples 1000000000 8%float two_successes "10.0.0.1:80"
           (after [350000; 250000])).
  - vm_compute. reflexivity.
  - repeat constructor; discriminate.
Defined.

End SampleBuffer.

(** ** The detector: one tick *)

Section DetectorTick.

Import Health.

Implicit Types (c : Checker) (host : string).

Context {S : Type} (updateFunc : string → bool → S → S).

Lemma Checker_eq c1 c2 :
  interval c1 = interval c2 → phiThreshold c1 = phiThreshold c2 →
  histories c1 = histories c2 → lastCheck c1 = lastCheck c2 → c1 = c2.
Proof. destruct c1, c2. simpl. by intros -> -> -> ->. Qed.

Lemma checkAll_as_in now probe c s :
  checkAll updateFunc now probe c s =
  checkAll_in updateFunc (λ _, now) probe (known_hosts c) c s.
Proof. done. Qed.

Lemma check_healthy now probe host c : (check now probe host c).2 = answered probe host.
Proof. unfold check, answered. by destruct (probe host). Qed.

Lemma check_lastCheck now probe host c host' :
  lastCheck (check now probe host c).1 !! host' =
  if decide (host = host') then Some now else lastCheck c !! host'.
Proof.
  unfold check. destruct (probe host); simpl; apply lookup_insert.
Qed.

Lemma check_histories now probe host c host' :
  is_Some (histories c !! host) →
  histories (check now probe host c).1 !! host' =
  if decide (host = host') then
    match probe host with
    | Some d => record_sample d <$> histories c !! host
    | None => histories c !! host
    end
  else histories c !! host'.
Proof.
  intros [h Hh]. unfold check. destruct (probe host) as [d|]; cbn [fst].
  - destruct (decide (host = host')) as [<-|Hne].
    + rewrite recordSuccess_history, Hh. done.
    + by rewrite recordSuccess_histories_ne.
  - rewrite recordFailure_histories. by destruct (decide (host = host')) as [<-|].
Qed.

Lemma check_fields now probe host c :
  interval (check now probe host c).1 = interval c ∧
  phiThreshold (check now probe host c).1 = phiThreshold c.
Proof. unfold check. by destruct (probe host). Qed.

Lemma checkAll_in_fold clock probe (l : list string) c s :
  checkAll_in updateFunc clock probe l c s =
  (foldl (λ c host, (check (clock host) probe host c).1) c l,
   foldl (λ s host, updateFunc host (answered probe host) s) s l).
Proof.
  unfold checkAll_in.
  revert c s. induction l as [|host l IH]; intros c s; cbn [foldl]; [done|].
  pose proof (check_healthy (clock host) probe host c) as Hh.
  destruct (check (clock host) probe host c) as [c' healthy]. simpl in *. subst. apply IH.
Qed.

(** The checker after the checks of the hosts [l], each known and none
    twice, in the order of [l]. *)
Lemma checks_state clock probe (l : list string) c :
  NoDup l → (∀ host, host ∈ l → is_Some (histories c !! host)) →
  let c' := foldl (λ c host, (check (clock host) probe host c).1) c l in
  (∀ host, histories c' !! host =
     if decide (host ∈ l) then
       match probe host with
       | Some d => record_sample d <$> histories c !! host
       | None => histories c !! host
       end
     else histories c !! host) ∧
  (∀ host, lastCheck c' !! host =
     if decide (host ∈ l) then Some (clock host) else lastCheck c !! host) ∧
  interval c' = interval c ∧ phiThreshold c' = phiThreshold c.
Proof.
  revert c. induction l as [|h l IH]; intros c Hnd Hl; cbv zeta; cbn [foldl].
  - split_and!; try done;
      intros host; by rewrite decide_False by apply not_elem_of_nil.
  - apply NoDup_cons in Hnd as [Hh Hnd].
    assert (Hk : is_Some (histories c !! h)) by (apply Hl; left).
    destruct (check_fields (clock h) probe h c) as [Hi Ht].
    destruct (IH (check (clock h) probe h c).1 Hnd) as (Hhist & Hlc & Hint & Hth).
    { intros host Hin. rewrite check_histories by done.
      rewrite decide_False by (intros ->; done). apply Hl. by right. }
    split_and!.
    + intros host. rewrite Hhist, !check_histories by done.
      destruct (decide (host ∈ l)) as [Hin|Hnin].
      * rewrite decide_False by (intros ->; done).
        rewrite decide_True; [done|by right].
      * destruct (decide (h = host)) as [->|Hne].
        -- rewrite decide_True; [done|by left].
        -- rewrite decide_False; [done|]. by intros [?|?]%elem_of_cons.
    + intros host. rewrite Hlc, check_lastCheck.
      destruct (decide (host ∈ l)) as [Hin|Hnin].
      * rewrite decide_True; [done|by right].
      * destruct (decide (h = host)) as [->|Hne].
        -- rewrite decide_True; [done|by left].
        -- rewrite decide_False; [done|]. by intros [?|?]%elem_of_cons.
    + congruence.
    + congruence.
Qed.

Lemma known_hosts_spec c :
  NoDup (known_hosts c) ∧ ∀ host, host ∈ known_hosts c ↔ is_Some (histories c !! host).
Proof.
  unfold known_hosts. split; [apply NoDup_fst_map_to_list|].
  intros host. rewrite list_elem_of_fmap. split.
  - intros ([h x] & -> & Hin). apply elem_of_map_to_list in Hin. eauto.
  - intros [x Hx]. exists (host, x). split; [done|]. by apply elem_of_map_to_list.
Qed.

(** X20.  One tick of the detector, its goroutines taken in any order
    [order] of the hosts collected.  The hosts probed are those with a
    history, each once; the callback is called once for each of them, with
    [true] exactly when its probe connected; a host whose probe connected
    gets the duration as one more sample, every other history stays as it
    is; each probed host gets the clock reading of its check as
    [lastCheck], every other host keeps its own; and the checker that
    results is the same for every order. *)
Theorem tick_checks_known_hosts clock probe order c s :
  order ≡ₚ known_hosts c →
  NoDup order ∧
  (∀ host, host ∈ order ↔ is_Some (histories c !! host)) ∧
  (checkAll_in updateFunc clock probe order c s).2 =
    foldl (λ s host, updateFunc host (answered probe host) s) s order ∧
  (∀ host, histories (checkAll_in updateFunc clock probe order c s).1 !! host =
     match probe host with
     | Some d => record_sample d <$> histories c !! host
     | None => histories c !! host
     end) ∧
  (∀ host, lastCheck (checkAll_in updateFunc clock probe order c s).1 !! host =
     if decide (is_Some (histories c !! host)) then Some (clock host)
     else lastCheck c !! host) ∧
  (∀ order', order' ≡ₚ known_hosts c →
     (checkAll_in updateFunc clock probe order' c s).1 =
     (checkAll_in updateFunc clock probe order c s).1).
Proof.
  intros Hperm. destruct (known_hosts_spec c) as [Hnd Hin].
  assert (∀ l, l ≡ₚ known_hosts c →
    NoDup l ∧ (∀ host, host ∈ l ↔ is_Some (histories c !! host)) ∧
    (∀ host, histories (checkAll_in updateFunc clock probe l c s).1 !! host =
       match probe host with
       | Some d => record_sample d <$> histories c !! host
       | None => histories c !! host
       end) ∧
    (∀ host, lastCheck (checkAll_in updateFunc clock probe l c s).1 !! host =
       if decide (is_Some (histories c !! host)) then Some (clock host)
       else lastCheck c !! host) ∧
    interval (checkAll_in updateFunc clock probe l c s).1 = interval c ∧
    phiThreshold (checkAll_in updateFunc clock probe l c s).1 = phiThreshold c) as Hany.
  { intros l Hl.
    assert (NoDup l) as Hndl by (by rewrite Hl).
    assert (∀ host, host ∈ l ↔ is_Some (histories c !! host)) as Hinl.
    { intros host. by rewrite Hl. }
    rewrite checkAll_in_fold. cbn [fst].
    destruct (checks_state clock probe l c Hndl) as (Hhist & Hlc & Hint & Hth).
    { intros host. apply Hinl. }
    split_and!; try done.
    - intros host. rewrite Hhist. destruct (decide (host ∈ l)) as [|Hnot]; [done|].
      assert (histories c !! host = None) as ->.
      { apply eq_None_not_Some. by rewrite <-Hinl. }
      by destruct (probe host).
    - intros host. rewrite Hlc.
      destruct (decide (host ∈ l)) as [Hyes|Hnot].
      + rewrite decide_True; [done|by apply Hinl].
      + rewrite decide_False; [done|by rewrite <-Hinl]. }
  destruct (Hany order Hperm) as (Hndo & Hino & Hhist & Hlc & Hint & Hth).
  split_and!; try done.
  - by rewrite checkAll_in_fold.
  - intros order' Hperm'.
    destruct (Hany order' Hperm') as (_ & _ & Hhist' & Hlc' & Hint' & Hth').
    apply Checker_eq; [congruence|congruence| |].
    + apply map_eq. intros host. by rewrite Hhist, Hhist'.
    + apply map_eq. intros host. by rewrite Hlc, Hlc'.
Qed.

End DetectorTick.

Lemma tick_checks_known_hosts_witness :
  NoDup (Health.known_hosts Health.checker_two) ∧
  (∀ host, host ∈ Health.known_hosts Health.checker_two ↔
           is_Some (Health.histories Health.checker_two !! host)) ∧
  (Health.checkAll_in Health.log_call (λ _, 4000000000) Health.probe_one
     (Health.known_hosts Health.checker_two) Health.checker_two []).2 =
    foldl (λ s host, Health.log_call host (Health.answered Health.probe_one host) s) []
      (Health.known_hosts Health.checker_two) ∧
  (∀ host,
     Health.histories
       (Health.checkAll_in Health.log_call (λ _, 4000000000) Health.probe_one
          (Health.known_hosts Health.checker_two) Health.checker_two []).1 !! host =
     match Health.probe_one host with
     | Some d => Health.record_sample d <$> Health.histories Health.checker_two !! host
     | None => Health.histories Health.checker_two !! host
     end) ∧
  (∀ host,
     Health.lastCheck
       (Health.checkAll_in Health.log_call (λ _, 4000000000) Health.probe_one
          (Health.known_hosts Health.checker_two) Health.checker_two []).1 !! host =
     if decide (is_Some (Health.histories Health.checker_two !! host))
     then Some 4000000000
     else Health.lastCheck Health.checker_two !! host) ∧
  (∀ order', order' ≡ₚ Health.known_hosts Health.checker_two →
     (Health.checkAll_in Health.log_call (λ _, 4000000000) Health.probe_one order'
        Health.checker_two []).1 =
     (Health.checkAll_in Health.log_call (λ _, 4000000000) Health.probe_one
        (Health.known_hosts Health.checker_two) Health.checker_two []).1).
Proof.
  apply (tick_checks_known_hosts Health.log_call (λ _, 4000000000) Health.probe_one
           (Health.known_hosts Health.checker_two) Health.checker_two []).
  reflexivity.
Defined.

(** ** The balancer: the table and the ring *)

Section BalancerTable.

Import Balancer.

Implicit Types (b : balancer) (key : string) (bc : Config.BackendConfig).

Lemma Add_nodes_mapped node w (c : Hashing.ConsistentHasher) :
  (∀ v, v ∈ Hashing.nodes c → is_Some (Hashing.hash c !! v)) →
  ∀ v, v ∈ Hashing.nodes (Hashing.Add node w c) →
       is_Some (Hashing.hash (Hashing.Add node w c) !! v).
Proof.
  intros Hc v. destruct (Add_spec node w c) as (_ & Hn & Hh).
  rewrite Hn, Hh. case_decide; [by eauto|]. intros [?|?]; [by apply Hc|done].
Qed.

Lemma fold_add_backend (bcs : list Config.BackendConfig) :
  let r := foldl add_backend (∅, Hashing.New) bcs in
  (∀ k be, r.1 !! k = Some be → ∃ bc, bc ∈ bcs ∧ k = key_of bc ∧ be = backend_of bc) ∧
  (∀ bc, bc ∈ bcs → is_Some (r.1 !! key_of bc)) ∧
  Hashing.members r.2 = list_to_set (Config.Host <$> bcs) ∧
  (∀ v, v ∈ Hashing.nodes r.2 → is_Some (Hashing.hash r.2 !! v)) ∧
  (∀ v h, Hashing.hash r.2 !! v = Some h → ∃ bc, bc ∈ bcs ∧ h = Config.Host bc) ∧
  length (Hashing.nodes r.2) =
    foldr (λ bc n, (length (Hashing.replicas (Config.Weight bc)) + n)%nat) 0%nat bcs.
Proof.
  induction bcs as [|bc bcs IH] using rev_ind; cbv zeta.
  - cbn [foldl fst snd]. split_and!.
    + intros k be. by rewrite lookup_empty.
    + intros bc Hbc. by apply elem_of_nil in Hbc.
    + unfold Hashing.members. simpl. by rewrite dom_empty_L.
    + intros v Hv. by apply elem_of_nil in Hv.
    + intros v h. simpl. by rewrite lookup_empty.
    + done.
  - rewrite foldl_app. cbn [foldl].
    destruct IH as (Htab & Hreg & Hmem & Hmap & Hval & Hlen).
    destruct (foldl add_backend (∅, Hashing.New) bcs) as [bs hs].
    unfold add_backend. cbn [fst snd host weight] in *.
    destruct (Add_spec (Config.Host bc) (Config.Weight bc) hs) as (Hw & Hn & Hh).
    split_and!.
    + intros k be. fold (key_of bc). rewrite lookup_insert. case_decide as Hk.
      * intros [= <-]. exists bc. split_and!; [|done..].
        apply elem_of_app. right. by left.
      * intros (bc' & ? & ? & ?)%Htab. exists bc'. split_and!; [|done..].
        apply elem_of_app. by left.
    + intros bc' [Hin|Hin%list_elem_of_singleton]%elem_of_app; fold (key_of bc).
      * rewrite lookup_insert. case_decide; [by eauto|by apply Hreg].
      * subst. rewrite lookup_insert_eq. eauto.
    + unfold Hashing.members in *. rewrite Hw, dom_insert_L, Hmem.
      rewrite fmap_app, list_to_set_app_L. simpl.
      rewrite union_empty_r_L. apply (comm_L _).
    + by apply Add_nodes_mapped.
    + intros v h. rewrite Hh. case_decide.
      * intros [= <-]. exists bc. split; [|done]. apply elem_of_app. right. by left.
      * intros (bc' & ? & ?)%Hval. exists bc'. split; [|done]. apply elem_of_app. by left.
    + rewrite Add_length, Hlen. rewrite foldr_app. simpl.
      generalize (length (Hashing.replicas (Config.Weight bc))). intros m.
      clear. induction bcs as [|x l IH]; simpl; [lia|]. rewrite <-IH. lia.
Qed.

(** X21.  [New] succeeds exactly when [MaxIdle] and [MaxActive] are
    positive.  The balancer it returns has a fresh pool and checker; its
    table holds, under each configured ["host:port"], a backend with the
    values of a configuration entry of that key, marked healthy, and
    nothing else; the members of its ring are the configured host names. *)
Theorem New_builds_table c :
  ((∃ b, New c = inl b) ↔
     0 < Config.MaxIdle (Config.Pool c) ∧ 0 < Config.MaxActive (Config.Pool c)) ∧
  ∀ b, New c = inl b →
    cfg b = c ∧
    Connpool.New (Config.Pool c) = Connpool.Ok (pool b) ∧
    checker b = Health.New (Config.HealthCheckInterval (Config.Balancer c))
                           (Config.FailureThreshold (Config.Balancer c)) ∧
    (∀ k be, backends b !! k = Some be →
       ∃ bc, bc ∈ Config.Backends c ∧ k = key_of bc ∧ be = backend_of bc) ∧
    (∀ bc, bc ∈ Config.Backends c → is_Some (backends b !! key_of bc)) ∧
    Hashing.members (hasher b) = list_to_set (Config.Host <$> Config.Backends c).
Proof.
  split.
  - rewrite <-New_Ok_iff. unfold New.
    destruct (Connpool.New (Config.Pool c)) as [p|e].
    + destruct (foldl _ _ _). split; eauto.
    + split; [by intros [? ?]|]. by intros [? ?].
  - intros b. unfold New.
    destruct (Connpool.New (Config.Pool c)) as [p|e]; [|done].
    pose proof (fold_add_backend (Config.Backends c)) as (Htab & Hreg & Hmem & _).
    destruct (foldl _ _ _) as [bs hs]. intros [= <-]. simpl in *. by split_and!.
Qed.

Lemma New_ring c b :
  New c = inl b →
  (∀ v, v ∈ Hashing.nodes (hasher b) → is_Some (Hashing.hash (hasher b) !! v)) ∧
  (∀ v h, Hashing.hash (hasher b) !! v = Some h →
          ∃ bc, bc ∈ Config.Backends c ∧ h = Config.Host bc) ∧
  length (Hashing.nodes (hasher b)) =
    foldr (λ bc n, (length (Hashing.replicas (Config.Weight bc)) + n)%nat) 0%nat
          (Config.Backends c).
Proof.
  intros (_ & _ & Hhs)%New_inv.
  pose proof (fold_add_backend (Config.Backends c)) as (_ & _ & _ & ? & ? & ?).
  rewrite Hhs. by split_and!.
Qed.

(** What [Hashing.Get] can answer on the ring of a balancer: the empty
    string or a configured host name. *)
Lemma New_Get c b key :
  New c = inl b →
  Hashing.Get key (hasher b) = Some "" ∨
  ∃ bc, bc ∈ Config.Backends c ∧ Hashing.Get key (hasher b) = Some (Config.Host bc).
Proof.
  intros HNew. destruct (New_ring c b HNew) as (Hmap & Hval & _).
  destruct (decide (Hashing.nodes (hasher b) = [])) as [Hnil|Hne].
  - left. unfold Hashing.Get. by rewrite Hnil.
  - destruct (Get_index key _ Hne) as (v & Hv & ->).
    destruct (Hmap v Hv) as [h Hh]. rewrite Hh. simpl.
    destruct (Hval v h Hh) as (bc & ? & ->). eauto.
Qed.

(** X22.  On the balancer of a configuration that [validate] accepts, with
    weights below [2^63 / 100], the ring sends every key to the host name
    of a configured backend. *)
Theorem ring_routes_to_configured_host c b key :
  Config.validate c = None →
  Forall (λ bc, 100 * Config.Weight bc ≤ max_int64) (Config.Backends c) →
  New c = inl b →
  ∃ bc, bc ∈ Config.Backends c ∧ Config.Host bc ≠ "" ∧
        Hashing.Get key (hasher b) = Some (Config.Host bc).
Proof.
  intros Hvalid Hw HNew.
  assert (Config.Backends c ≠ [] ∧ Forall Config.backend_ok (Config.Backends c)) as [Hne Hok].
  { revert Hvalid. unfold Config.validate.
    repeat (match goal with |- context [if ?b then _ else _] => destruct b eqn:? end;
            [discriminate|]).
    destruct (Config.validate_backends 0 (Config.Backends c)) eqn:Hvb; [discriminate|].
    intros _. split.
    - by destruct (Config.Backends c).
    - by apply (validate_backends_None 0). }
  destruct (New_ring c b HNew) as (Hmap & Hval & Hlen).
  assert (Hashing.nodes (hasher b) ≠ []) as Hnodes.
  { intros Hnil. rewrite Hnil in Hlen. simpl in Hlen.
    destruct (Config.Backends c) as [|bc l]; [done|].
    apply Forall_cons in Hok as [(_ & _ & Hpos) _]. apply Forall_cons in Hw as [Hmax _].
    pose proof (replicas_nonempty _ Hpos Hmax) as Hin. simpl in Hlen.
    destruct (Hashing.replicas (Config.Weight bc)); [by apply elem_of_nil in Hin|].
    simpl in Hlen. lia. }
  destruct (Get_index key _ Hnodes) as (v & Hv & ->).
  destruct (Hmap v Hv) as [h Hh]. rewrite Hh. simpl.
  destruct (Hval v h Hh) as (bc & Hbc & ->). exists bc. split_and!; [done| |done].
  rewrite Forall_forall in Hok. by apply Hok.
Qed.

Lemma ring_routes_to_configured_host_witness :
  ∃ bc, bc ∈ Config.Backends demo_cfg ∧ Config.Host bc ≠ "" ∧
        Hashing.Get client_key (hasher demo_balancer) = Some (Config.Host bc).
Proof.
  apply (ring_routes_to_configured_host demo_cfg demo_balancer client_key).
  - reflexivity.
  - repeat constructor; discriminate.
  - reflexivity.
Defined.

(** X23.  The table is keyed by ["host:port"] and the ring answers with host
    names.  When no configured host name is the ["host:port"] of a
    configured backend, [getHealthyBackend] finds a backend for no key:
    it fails with "no backend available" or with "backend not found" for
    a configured host. *)
Theorem getHealthyBackend_key_mismatch c b key :
  New c = inl b →
  (∀ bc bc', bc ∈ Config.Backends c → bc' ∈ Config.Backends c →
             Config.Host bc ≠ key_of bc') →
  getHealthyBackend key b = inr ErrNoBackend ∨
  ∃ bc, bc ∈ Config.Backends c ∧
        getHealthyBackend key b = inr (ErrBackendNotFound (Config.Host bc)).
Proof.
  intros HNew Hdiff. unfold getHealthyBackend.
  destruct (New_Get c b key HNew) as [->|(bc & Hbc & ->)]; simpl; [by left|].
  destruct (String.eqb_spec (Config.Host bc) ""); [by left|]. right.
  exists bc. split; [done|].
  destruct (backends b !! Config.Host bc) as [be|] eqn:Hbe; [|done].
  pose proof (fold_add_backend (Config.Backends c)) as (Htab & _).
  apply New_inv in HNew as (_ & Hbs & _). rewrite Hbs in Hbe.
  apply Htab in Hbe as (bc' & Hbc' & Hk & _). by destruct (Hdiff bc bc').
Qed.

Lemma getHealthyBackend_key_mismatch_witness :
  getHealthyBackend client_key demo_balancer = inr ErrNoBackend ∨
  ∃ bc, bc ∈ Config.Backends demo_cfg ∧
        getHealthyBackend client_key demo_balancer =
          inr (ErrBackendNotFound (Config.Host bc)).
Proof.
  apply (getHealthyBackend_key_mismatch demo_cfg demo_balancer client_key).
  - reflexivity.
  - intros bc bc' ->%list_elem_of_singleton ->%list_elem_of_singleton. discriminate.
Defined.

End BalancerTable.

(** ** The balancer: health flags and shutdown *)

Section BalancerControl.

Import Balancer.

Implicit Types (b : balancer) (key : string).

(** X24.  A backend marked unhealthy is not handed out: for a key the ring
    sends to a name the table knows, [getHealthyBackend] answers
    "backend unhealthy" after the flag of that name was set to false, and
    answers the backend, flagged healthy, after it was set to true. *)
Theorem unhealthy_backend_is_excluded key h be b :
  Hashing.Get key (hasher b) = Some h → h ≠ "" → backends b !! h = Some be →
  getHealthyBackend key (update_health h false b) = inr (ErrBackendUnhealthy h) ∧
  getHealthyBackend key (update_health h true b) =
    inl {| host := host be; port := port be; weight := weight be; health := true |}.
Proof.
  intros HGet Hne Hbe. unfold getHealthyBackend, update_health. cbn [hasher backends].
  rewrite HGet. simpl. destruct (String.eqb_spec h ""); [done|].
  unfold updateBackendHealth. rewrite Hbe, !lookup_insert_eq. done.
Qed.

Lemma unhealthy_backend_is_excluded_witness :
  getHealthyBackend client_key (update_health "a" false hand_balancer) =
    inr (ErrBackendUnhealthy "a") ∧
  getHealthyBackend client_key (update_health "a" true hand_balancer) =
    inl {| host := "a"; port := 1; weight := 1; health := true |}.
Proof.
  apply (unhealthy_backend_is_excluded client_key "a"
           {| host := "a"; port := 1; weight := 1; health := true |} hand_balancer).
  - vm_compute. reflexivity.
  - discriminate.
  - reflexivity.
Defined.

(** X25.  [Shutdown] reports an error only when closing the listener fails,
    and then leaves the pool alone: no idle connection is closed.
    Otherwise it returns nil, closes the idle connections of the pool and
    those only, and leaves [active] and the configuration as they are. *)
Theorem Shutdown_closes_idle listener b :
  ((Shutdown listener b).2 = Some ErrClosingListener ↔ listener = Some true) ∧
  (listener = Some true → (Shutdown listener b).1 = (b, [])) ∧
  (listener ≠ Some true →
     (Shutdown listener b).2 = None ∧
     pool (Shutdown listener b).1.1 = Connpool.set_idle ∅ (pool b) ∧
     backends (Shutdown listener b).1.1 = backends b ∧
     ∀ c, c ∈ (Shutdown listener b).1.2 ↔
          ∃ addr conns ic, Connpool.idle (pool b) !! addr = Some conns ∧
                           ic ∈ conns ∧ Connpool.conn ic = c).
Proof.
  assert (∀ l, l ≠ Some true →
     Shutdown l b =
       ({| cfg := cfg b; pool := Connpool.set_idle ∅ (pool b); hasher := hasher b;
           checker := checker b; backends := backends b |},
        (Connpool.Close (pool b)).1.2, None)) as Hok.
  { intros l Hl. unfold Shutdown.
    pose proof (Close_pool (pool b)) as Hp. pose proof (Close_result (pool b)) as Hr.
    destruct (Connpool.Close (pool b)) as [[p cl] err]. simpl in *. subst.
    by destruct l as [[]|]. }
  split_and!.
  - destruct (decide (listener = Some true)) as [->|Hl]; [done|].
    rewrite Hok by done. simpl. split; [done|]. by intros.
  - by intros ->.
  - intros Hl. rewrite Hok by done. simpl. split_and!; try done.
    intros c. apply Close_closed.
Qed.

End BalancerControl.

(** ** Sessions: the channel and the pool *)

Section SessionPool.

Import Balancer.

Variables (b : balancer) (key : string).

(** X26.  The channel [errCh] has room for both results: in every state a
    session can reach, a [proxy] goroutine that is back from [io.Copy] can
    send its result at once, so neither goroutine is left blocked on the
    channel after the handler has returned. *)
Theorem proxy_send_never_blocks es s first failed :
  exec b key (start b) es = Some s →
  get_copy first s = Copied failed →
  ∃ s', step b key s (Send first) = Some s' ∧
        get_copy first s' = Terminated ∧ errCh s' = errCh s ++ [failed].
Proof.
  intros Hexec Hcopy. pose proof (exec_inv b key _ _ _ (start_inv b) Hexec) as [Hch _].
  unfold step. rewrite Hcopy.
  assert (length (errCh s) < 2)%nat as Hlen.
  { unfold terminated_count, get_copy in *.
    destruct first; rewrite Hcopy in Hch; simpl in Hch;
      [destruct (terminated (to_backend s))|destruct (terminated (to_client s))]; lia. }
  destruct (Nat.ltb_spec (length (errCh s)) 2); [|lia].
  eexists. split; [done|]. by destruct first.
Qed.

Lemma Get_active now dial addr p :
  match (Connpool.Get now dial addr p).2 with
  | Connpool.Ok _ =>
      Connpool.active (Connpool.Get now dial addr p).1.1 = wrap64 (Connpool.active p + 1)
  | Connpool.Err _ =>
      Connpool.active (Connpool.Get now dial addr p).1.1 = Connpool.active p
  end.
Proof.
  unfold Connpool.Get.
  destruct (Connpool.idle p !! addr) as [conns|]; [destruct (last conns) as [ic|]|]; simpl.
  - destruct (_ >? _); [|done]. unfold Connpool.createConn. simpl.
    destruct (_ >=? _); [done|]. by destruct (dial addr).
  - unfold Connpool.createConn. destruct (_ >=? _); [done|]. by destruct (dial addr).
  - unfold Connpool.createConn. destruct (_ >=? _); [done|]. by destruct (dial addr).
Qed.

Lemma Put_active now c p :
  0 < Connpool.active p →
  Connpool.active (Connpool.Put now c p).1.1 = wrap64 (Connpool.active p - 1).
Proof.
  intros Hpos. unfold Connpool.Put. destruct (Z.leb_spec (Connpool.active p) 0); [lia|].
  by destruct (_ >=? _).
Qed.

Hypothesis Hactive : 0 ≤ Connpool.active (pool b) < max_int64.

Lemma start_pool_inv : session_pool_inv b (start b).
Proof. by split_and!. Qed.

Lemma step_pool_inv s e s' :
  session_pool_inv b s → step b key s e = Some s' → session_pool_inv b s'.
Proof.
  destruct s as [x p bc tc tb ch dn]. unfold session_pool_inv. simpl.
  intros (Hmi & Hma & Hit & Hpc) Hstep.
  destruct e as [now dial|first failed|first]; simpl in Hstep.
  - destruct x; simpl in *.
    + destruct (getHealthyBackend key b); simplify_eq; simpl; subst; by split_and!.
    + pose proof (Get_active now dial (host_port (host be) (port be)) p) as Hact.
      pose proof (Get_frame now dial (host_port (host be) (port be)) p) as (? & ? & ?).
      destruct (Connpool.Get _ _ _ _) as [[p' cl] [c|err]]; simplify_eq; simpl in *;
        split_and!; try congruence.
      rewrite Hact. apply wrap64_small. unfold min_int64, max_int64 in *. lia.
    + simplify_eq; simpl. by split_and!.
    + simplify_eq; simpl. by split_and!.
    + destruct ch; simplify_eq; simpl. by split_and!.
    + destruct bc as [c|]; simplify_eq; simpl.
      pose proof (Put_frame now c p) as (? & ? & ?).
      split_and!; try congruence.
      rewrite Put_active by lia. rewrite Hpc.
      replace (Connpool.active (pool b) + 1 - 1) with (Connpool.active (pool b)) by lia.
      apply wrap64_small. unfold min_int64, max_int64 in *. lia.
    + simplify_eq; simpl. by split_and!.
    + done.
  - unfold get_copy in Hstep. destruct first; simpl in Hstep.
    + destruct tc; simplify_eq; simpl. by split_and!.
    + destruct tb; simplify_eq; simpl. by split_and!.
  - unfold get_copy in Hstep. destruct first; simpl in Hstep.
    + destruct tc; try done. destruct (_ <? _)%nat; simplify_eq; simpl. by split_and!.
    + destruct tb; try done. destruct (_ <? _)%nat; simplify_eq; simpl. by split_and!.
Qed.

Lemma exec_pool_inv s es s' :
  session_pool_inv b s → exec b key s es = Some s' → session_pool_inv b s'.
Proof.
  revert s. induction es as [|e es IH]; intros s Hinv; simpl.
  - by intros [= <-].
  - destruct (step b key s e) as [s1|] eqn:Hstep; [|done].
    apply IH. by eapply step_pool_inv.
Qed.

(** X27.  A session on its own gives back what it takes: with [active]
    between zero and the top of its range at the start, once the handler
    has returned the pool has the [active] count and the configuration it
    started with, whether the connection came from a dial or from an idle
    bucket and whether it was cached or closed on release. *)
Theorem session_restores_active es s :
  exec b key (start b) es = Some s →
  pc s = Returned →
  Connpool.active (the_pool s) = Connpool.active (pool b) ∧
  Connpool.maxIdle (the_pool s) = Connpool.maxIdle (pool b) ∧
  Connpool.maxActive (the_pool s) = Connpool.maxActive (pool b) ∧
  Connpool.idleTimeout (the_pool s) = Connpool.idleTimeout (pool b).
Proof.
  intros Hexec Hret.
  destruct (exec_pool_inv _ _ _ start_pool_inv Hexec) as (? & ? & ? & Hpc).
  rewrite Hret in Hpc. by split_and!.
Qed.

End SessionPool.

Lemma proxy_send_never_blocks_witness :
  ∃ s, Balancer.exec Balancer.hand_balancer Balancer.client_key
         (Balancer.start Balancer.hand_balancer) Balancer.copy_back = Some s ∧
       ∃ s', Balancer.step Balancer.hand_balancer Balancer.client_key s (Balancer.Send true)
               = Some s' ∧
             Balancer.get_copy true s' = Balancer.Terminated ∧
             Balancer.errCh s' = Balancer.errCh s ++ [false].
Proof.
  eexists. split; [vm_compute; reflexivity|].
  apply (proxy_send_never_blocks Balancer.hand_balancer Balancer.client_key
           Balancer.copy_back _ true false); vm_compute; reflexivity.
Defined.

Lemma session_restores_active_witness :
  ∃ s, Balancer.exec Balancer.hand_balancer Balancer.client_key
         (Balancer.start Balancer.hand_balancer) Balancer.whole_session = Some s ∧
       Connpool.active (Balancer.the_pool s) =
         Connpool.active (Balancer.pool Balancer.hand_balancer) ∧
       Connpool.maxIdle (Balancer.the_pool s) =
         Connpool.maxIdle (Balancer.pool Balancer.hand_balancer) ∧
       Connpool.maxActive (Balancer.the_pool s) =
         Connpool.maxActive (Balancer.pool Balancer.hand_balancer) ∧
       Connpool.idleTimeout (Balancer.the_pool s) =
         Connpool.idleTimeout (Balancer.pool Balancer.hand_balancer).
Proof.
  eexists. split; [vm_compute; reflexivity|].
  apply (session_restores_active Balancer.hand_balancer Balancer.client_key
           ltac:(split; [discriminate|reflexivity]) Balancer.whole_session);
    vm_compute; reflexivity.
Defined.

Section DroppedSession.

Import Balancer.

Variables (b : balancer) (key : string).

Hypothesis Hfail : ∃ e, getHealthyBackend key b = inr e.

Lemma step_dropped s e s' :
  dropped_inv b s → step b key s e = Some s' → dropped_inv b s'.
Proof.
  destruct Hfail as [err Herr].
  destruct s as [x p bc tc tb ch dn]. unfold dropped_inv. simpl.
  intros (-> & -> & -> & -> & -> & Hpc) Hstep.
  destruct e as [now dial|first failed|first]; simpl in Hstep.
  - destruct Hpc as [[-> ->]|[[-> ->]|[-> ->]]]; simpl in Hstep.
    + rewrite Herr in Hstep. simplify_eq; simpl. split_and!; try done. right. by left.
    + simplify_eq; simpl. split_and!; try done. right. by right.
    + done.
  - by destruct first.
  - by destruct first.
Qed.

(** X28.  When the backend lookup fails for a client, its session never
    touches the pool: in every state it can reach the pool is the
    balancer's, no backend connection is held, neither [proxy] goroutine
    was started, nothing was released, and what the handler has done by
    its return is to close the client connection. *)
Theorem dropped_client_leaves_pool es s :
  exec b key (start b) es = Some s →
  the_pool s = pool b ∧ backendConn s = None ∧
  to_client s = NotStarted ∧ to_backend s = NotStarted ∧
  has_released s = false ∧
  (pc s = Returned → done s = [CloseClient]).
Proof.
  assert (∀ s0, dropped_inv b s0 → exec b key s0 es = Some s → dropped_inv b s) as Hgen.
  { induction es as [|e es' IH]; intros s0 Hinv; simpl.
    - by intros [= <-].
    - destruct (step b key s0 e) as [s1|] eqn:Hstep; [|done].
      apply IH. by eapply step_dropped. }
  intros Hexec.
  destruct (Hgen (start b)) as (? & ? & ? & ? & _ & Hpc); [|done|].
  { unfold dropped_inv. simpl. split_and!; try done. by left. }
  unfold has_released. split_and!; try done.
  - destruct Hpc as [[_ ->]|[[_ ->]|[_ ->]]]; done.
  - intros Hret. destruct Hpc as [[? _]|[[? _]|[_ ?]]]; congruence.
Qed.

End DroppedSession.

Lemma dropped_client_leaves_pool_witness :
  ∃ s, Balancer.exec (Balancer.update_health "a" false Balancer.hand_balancer)
         Balancer.client_key
         (Balancer.start (Balancer.update_health "a" false Balancer.hand_balancer))
         [Balancer.tick; Balancer.tick] = Some s ∧
       Balancer.the_pool s = Balancer.pool (Balancer.update_health "a" false Balancer.hand_balancer) ∧
       Balancer.backendConn s = None ∧
       Balancer.to_client s = Balancer.NotStarted ∧
       Balancer.to_backend s = Balancer.NotStarted ∧
       Balancer.has_released s = false ∧
       (Balancer.pc s = Balancer.Returned → Balancer.done s = [Balancer.CloseClient]).
Proof.
  eexists. split; [vm_compute; reflexivity|].
  apply (dropped_client_leaves_pool (Balancer.update_health "a" false Balancer.hand_balancer)
           Balancer.client_key
           ltac:(eexists; vm_compute; reflexivity)
           [Balancer.tick; Balancer.tick]).
  vm_compute. reflexivity.
Defined.

(** ** Sessions: the handler returns *)

Ltac live_auto :=
  repeat match goal with
         | H : _ ∧ _ |- _ => destruct H
         | H : is_Some (Some _) |- _ => clear H
         | H : is_Some None |- _ => by destruct H
         end;
  simplify_eq; simpl in *; repeat split; eauto; try lia; try done.

Section SessionProgress.

Import Balancer.

Variables (b : balancer) (key : string).

Lemma start_live : session_live_inv (start b).
Proof. by split_and!. Qed.

Lemma step_live s e s' :
  session_live_inv s → step b key s e = Some s' → session_live_inv s'.
Proof.
  destruct s as [x p bc tc tb ch dn]. unfold session_live_inv, terminated_count.
  intros Hpc Hstep. simpl in Hpc.
  destruct e as [now dial|first failed|first]; simpl in Hstep.
  - destruct x; simpl in *.
    + destruct (getHealthyBackend key b); simplify_eq; simpl; live_auto.
    + destruct (Connpool.Get _ _ _ _) as [[p' cl] [c|err]]; simplify_eq; simpl; live_auto.
    + simplify_eq; simpl. live_auto.
    + simplify_eq; simpl. destruct tc; live_auto.
    + destruct ch as [|r rest]; simplify_eq; simpl. live_auto.
    + destruct bc as [c|]; simplify_eq; simpl. done.
    + simplify_eq; simpl. done.
    + done.
  - unfold get_copy in Hstep. destruct first; simpl in Hstep.
    + destruct tc; simplify_eq; simpl. destruct x, tb; live_auto.
    + destruct tb; simplify_eq; simpl. destruct x, tc; live_auto.
  - unfold get_copy in Hstep. destruct first; simpl in Hstep.
    + destruct tc; try done. destruct (_ <? _)%nat; simplify_eq; simpl.
      rewrite length_app. simpl. destruct x, tb; live_auto.
    + destruct tb; try done. destruct (_ <? _)%nat; simplify_eq; simpl.
      rewrite length_app. simpl. destruct x, tc; live_auto.
Qed.

Lemma exec_live s es s' :
  session_live_inv s → exec b key s es = Some s' → session_live_inv s'.
Proof.
  revert s. induction es as [|e es IH]; intros s Hinv; simpl.
  - by intros [= <-].
  - destruct (step b key s e) as [s1|] eqn:Hstep; [|done].
    apply IH. by eapply step_live.
Qed.

Lemma can_return_step s e s1 :
  step b key s e = Some s1 → can_return b key s1 → can_return b key s.
Proof.
  intros Hstep (es & s' & Hexec & Hret). exists (e :: es), s'.
  simpl. by rewrite Hstep.
Qed.

Lemma return_from_close s : pc s = AtDeferredClose → can_return b key s.
Proof.
  intros Hpc. eapply (can_return_step s tick).
  - unfold step, tick. by rewrite Hpc.
  - eexists [], _. by split.
Qed.

Lemma return_from_put s : pc s = AtDeferredPut → session_live_inv s → can_return b key s.
Proof.
  intros Hpc Hinv. unfold session_live_inv in Hinv. rewrite Hpc in Hinv.
  destruct Hinv as [c Hc]. eapply (can_return_step s tick).
  - unfold step, tick. by rewrite Hpc, Hc.
  - by apply return_from_close.
Qed.

Lemma return_from_receive s : pc s = AtReceive → session_live_inv s → can_return b key s.
Proof.
  intros Hpc Hinv. pose proof Hinv as Hinv0.
  unfold session_live_inv in Hinv. rewrite Hpc in Hinv.
  destruct Hinv as (Hbc & Hc & Hb & Hlen).
  assert (∀ s1, pc s1 = AtReceive → session_live_inv s1 → errCh s1 ≠ [] → can_return b key s1)
    as Hready.
  { intros s1 Hpc1 Hinv1 Hne. destruct (errCh s1) as [|r rest] eqn:Hch; [done|].
    eapply (can_return_step s1 tick).
    - unfold step, tick. by rewrite Hpc1, Hch.
    - apply return_from_put; [done|].
      unfold session_live_inv in *. rewrite Hpc1 in Hinv1. simpl. tauto. }
  destruct (errCh s) as [|r rest] eqn:Hch; [|apply Hready; [done..|by rewrite Hch]].
  unfold terminated_count in Hlen. simpl in Hlen.
  assert (Hsend : ∀ s1 f, pc s1 = AtReceive → session_live_inv s1 → errCh s1 = [] →
                          to_client s1 = Copied f → can_return b key s1).
  { intros s1 f Hpc1 Hinv1 Hch1 Hcopied.
    destruct (step b key s1 (Send true)) as [s2|] eqn:Hstep.
    - eapply can_return_step; [exact Hstep|].
      pose proof (step_live _ _ _ Hinv1 Hstep) as Hinv2.
      unfold step, get_copy in Hstep. rewrite Hcopied, Hch1 in Hstep. simpl in Hstep.
      simplify_eq. apply Hready; [done|done|]. simpl. by destruct (errCh s1).
    - unfold step, get_copy in Hstep. by rewrite Hcopied, Hch1 in Hstep. }
  destruct (to_client s) as [| |f|] eqn:Htc; simpl in *; try done.
  - (* still copying: it returns, then sends *)
    destruct (step b key s (CopyReturns true false)) as [s1|] eqn:Hstep.
    + eapply can_return_step; [exact Hstep|].
      pose proof (step_live _ _ _ Hinv0 Hstep) as Hinv1.
      unfold step, get_copy in Hstep. rewrite Htc in Hstep. simplify_eq.
      apply (Hsend _ false); try done.
    + unfold step, get_copy in Hstep. by rewrite Htc in Hstep.
  - by apply (Hsend s f).
Qed.

Lemma return_from_go2 s : pc s = AtGo2 → session_live_inv s → can_return b key s.
Proof.
  intros Hpc Hinv.
  destruct (step b key s tick) as [s1|] eqn:Hstep.
  - eapply can_return_step; [exact Hstep|].
    pose proof (step_live _ _ _ Hinv Hstep) as Hinv1.
    unfold step, tick in Hstep. rewrite Hpc in Hstep. simplify_eq.
    by apply return_from_receive.
  - unfold step, tick in Hstep. by rewrite Hpc in Hstep.
Qed.

Lemma return_from_go1 s : pc s = AtGo1 → session_live_inv s → can_return b key s.
Proof.
  intros Hpc Hinv.
  destruct (step b key s tick) as [s1|] eqn:Hstep.
  - eapply can_return_step; [exact Hstep|].
    pose proof (step_live _ _ _ Hinv Hstep) as Hinv1.
    unfold step, tick in Hstep. rewrite Hpc in Hstep. simplify_eq.
    by apply return_from_go2.
  - unfold step, tick in Hstep. by rewrite Hpc in Hstep.
Qed.

Lemma return_from_get be s : pc s = AtPoolGet be → session_live_inv s → can_return b key s.
Proof.
  intros Hpc Hinv.
  destruct (step b key s tick) as [s1|] eqn:Hstep.
  - eapply can_return_step; [exact Hstep|].
    pose proof (step_live _ _ _ Hinv Hstep) as Hinv1.
    unfold step, tick in Hstep. rewrite Hpc in Hstep.
    destruct (Connpool.Get _ _ _ _) as [[p' cl] [c|err]]; simplify_eq.
    + by apply return_from_go1.
    + by apply return_from_close.
  - unfold step, tick in Hstep. rewrite Hpc in Hstep.
    by destruct (Connpool.Get _ _ _ _) as [[p' cl] [c|err]].
Qed.

Lemma return_from_anywhere s : session_live_inv s → can_return b key s.
Proof.
  intros Hinv. destruct (pc s) eqn:Hpc.
  - destruct (step b key s tick) as [s1|] eqn:Hstep.
    + eapply can_return_step; [exact Hstep|].
      pose proof (step_live _ _ _ Hinv Hstep) as Hinv1.
      unfold step, tick in Hstep. rewrite Hpc in Hstep.
      destruct (getHealthyBackend key b) as [be|e]; simplify_eq.
      * by eapply return_from_get.
      * by apply return_from_close.
    + unfold step, tick in Hstep. rewrite Hpc in Hstep.
      by destruct (getHealthyBackend key b).
  - by eapply return_from_get.
  - by apply return_from_go1.
  - by apply return_from_go2.
  - by apply return_from_receive.
  - by apply return_from_put.
  - by apply return_from_close.
  - eexists [], s. by split.
Qed.

(** X29.  [handleConnection] cannot get stuck: from every state a session
    can reach there is a continuation of the schedule that brings the
    handler to its return. *)
Theorem handler_can_always_return es s :
  exec b key (start b) es = Some s →
  ∃ es' s', exec b key s es' = Some s' ∧ pc s' = Returned.
Proof.
  intros Hexec. apply return_from_anywhere. by eapply exec_live, Hexec; apply start_live.
Qed.

End SessionProgress.

Lemma handler_can_always_return_witness :
  ∃ s, Balancer.exec Balancer.hand_balancer Balancer.client_key
         (Balancer.start Balancer.hand_balancer) Balancer.copy_back = Some s ∧
       ∃ es' s', Balancer.exec Balancer.hand_balancer Balancer.client_key s es' = Some s' ∧
                 Balancer.pc s' = Balancer.Returned.
Proof.
  eexists. split; [vm_compute; reflexivity|].
  apply (handler_can_always_return Balancer.hand_balancer Balancer.client_key
           Balancer.copy_back).
  vm_compute. reflexivity.
Defined.
